(** * M/M/c queue analyzer: the engine of [queue_analyzer.py] in Rocq

    The three endpoints of the source ([analyze_queue], [simulate_queue],
    [get_state_probabilities]) and their helpers ([factorial],
    [calculate_p0], [calculate_erlang_c]) are embedded as functions.

    Numbers.  A Python [int] is a [Z].  A finite Python [float] is read as
    the rational it denotes and [+ - * /] on floats as exact: rounding is
    not modelled.  What Python does when a value leaves the range of a
    double is modelled where it changes the control flow: [math.pow] and the
    conversion of an [int] to a [float] raise [OverflowError].  The range is
    a parameter of the embedding ([float_range]): [unbounded] abstracts the
    range away (exact arithmetic), [binary64] is the range of CPython's
    doubles.

    Exceptions are values of [result]; the global numpy generator is an
    explicit sequence of draws with a position that the code advances. *)

From Stdlib Require Import String ZArith QArith Qabs Qpower List Bool Lia Lqa.
From Stdlib Require Import Qfield Sorted.
Import ListNotations.

Local Open Scope Z_scope.
Local Open Scope Q_scope.

(** ** Exceptions *)

Inductive error : Type :=
| HTTPException (status_code : Z) (detail : string)
| ZeroDivisionError
| ValueError
| OverflowError
| TypeError.

Inductive result (A : Type) : Type :=
| Ok (a : A)
| Err (e : error).

Arguments Ok {A} a.
Arguments Err {A} e.

Definition bind {A B : Type} (m : result A) (k : A -> result B) : result B :=
  match m with
  | Ok a => k a
  | Err e => Err e
  end.

Notation "x <- m ;; k" := (bind m (fun x => k))
  (at level 61, m at next level, right associativity).

(** The two [HTTPException]s the endpoints raise; the spec calls them
    InvalidParameterError and UnstableSystemError. *)
Definition InvalidParameterError : error :=
  HTTPException 400 "Parameters must be positive".

Definition UnstableSystemError : error :=
  HTTPException 400 "System is unstable (rho >= 1)".

(** ** The range of a float *)

Record float_range : Type := { finite : Q -> bool }.

Definition unbounded : float_range := {| finite := fun _ => true |}.

(** A value whose magnitude reaches [2^1024 - 2^970] rounds to infinity. *)
Definition DBL_OVERFLOW : Q := inject_Z (2 ^ 1024 - 2 ^ 970).

Definition Qlt_bool (x y : Q) : bool := negb (Qle_bool y x).

Definition binary64 : float_range :=
  {| finite := fun q => Qlt_bool (Qabs q) DBL_OVERFLOW |}.

(** ** Python values *)

(** A float that a response can carry: finite, or [float('inf')]. *)
Inductive pyfloat : Type :=
| Finite (q : Q)
| PosInf.

(** [range(n)] *)
Definition range (n : Z) : list Z := map Z.of_nat (seq 0 (Z.to_nat n)).

(** [x / y] on floats *)
Definition fdiv (x y : Q) : result Q :=
  if Qeq_bool y 0 then Err ZeroDivisionError else Ok (x / y).

(** [n!] as an [int] *)
Fixpoint fact_upto (n : nat) : Z :=
  match n with
  | O => 1%Z
  | S m => (Z.of_nat n * fact_upto m)%Z
  end.

(** [def factorial(n): return math.factorial(n)]; the value is an [int]. *)
Definition factorial (n : Z) : result Z :=
  if (n <? 0)%Z then Err ValueError else Ok (fact_upto (Z.to_nat n)).

(** [sum(term(k) for k in ks)]: the generator is consumed from the left,
    starting from [0]. *)
Fixpoint py_sum (term : Z -> result Q) (ks : list Z) (acc : Q) : result Q :=
  match ks with
  | [] => Ok acc
  | k :: ks' => t <- term k ;; py_sum term ks' (acc + t)
  end.

Module QueueParameters.
Record t : Type := mk {
  lambda_rate : Q;
  mu_rate : Q;
  c_servers : Z;
  simulation_time : option Q   (* [None] is a null in the request *)
}.
End QueueParameters.

Module QueueMetrics.
Record t : Type := mk {
  rho : pyfloat;
  traffic_intensity : pyfloat;
  p0 : pyfloat;
  erlang_c : pyfloat;
  lq : pyfloat;
  wq : pyfloat;
  l : pyfloat;
  w : pyfloat;
  utilization : pyfloat;
  stable : bool
}.
End QueueMetrics.

Module StateEntry.
Record t : Type := mk {
  state : Z;
  probability : Q;
  customers_in_queue : Z
}.
End StateEntry.

Module StateProbabilities.
Record t : Type := mk {
  p0 : Q;
  states : list StateEntry.t;
  traffic_intensity : Q;
  utilization : Q
}.
End StateProbabilities.

(** ** The analytic engine *)

Section Engine.

Variable R : float_range.

Definition to_float (q : Q) : result Q :=
  if finite R q then Ok q else Err OverflowError.

(** An [int] that meets a [float] in an arithmetic operation. *)
Definition float_of_int (n : Z) : result Q := to_float (inject_Z n).

(** [math.pow(x, n)]; every exponent in the source is an [int]. *)
Definition math_pow (x : Q) (n : Z) : result Q :=
  _ <- float_of_int n ;;
  if Qeq_bool x 0 && (n <? 0)%Z then Err ValueError else to_float (x ^ n).

(** [math.pow(a, k) / factorial(k)] *)
Definition power_over_factorial (a : Q) (k : Z) : result Q :=
  p <- math_pow a k ;;
  f <- factorial k ;;
  ff <- float_of_int f ;;
  fdiv p ff.

Definition calculate_p0 (a : Q) (c : Z) : result Q :=
  sum_term <- py_sum (power_over_factorial a) (range c) 0 ;;
  t <- power_over_factorial a c ;;
  cf <- float_of_int c ;;
  r <- fdiv cf (cf - a) ;;
  let last_term := t * r in
  fdiv 1 (sum_term + last_term).

Definition calculate_erlang_c (a : Q) (c : Z) (rho : Q) : result Q :=
  if Qle_bool 1 rho then Ok 1
  else
    p0 <- calculate_p0 a c ;;
    numerator <- power_over_factorial a c ;;
    let denominator := 1 - rho in
    fdiv (numerator * p0) denominator.

Definition analyze_queue (params : QueueParameters.t) : result QueueMetrics.t :=
  let lam := QueueParameters.lambda_rate params in
  let mu := QueueParameters.mu_rate params in
  let c := QueueParameters.c_servers params in
  if Qle_bool lam 0 || Qle_bool mu 0 || (c <=? 0)%Z then Err InvalidParameterError
  else
    cf <- float_of_int c ;;
    rho <- fdiv lam (cf * mu) ;;
    traffic_intensity <- fdiv lam mu ;;
    let stable := Qlt_bool rho 1 in
    if negb stable then
      Ok (QueueMetrics.mk (Finite rho) (Finite traffic_intensity)
            (Finite 0) (Finite 1) PosInf PosInf PosInf PosInf
            (Finite (rho * 100)) false)
    else
      p0 <- calculate_p0 traffic_intensity c ;;
      erlang_c <- calculate_erlang_c traffic_intensity c rho ;;
      q <- fdiv erlang_c (cf * mu - lam) ;;
      let wq := q * 60 in
      wq60 <- fdiv wq 60 ;;
      let lq := lam * wq60 in
      s <- fdiv 60 mu ;;
      let w := wq + s in
      w60 <- fdiv w 60 ;;
      let l := lam * w60 in
      Ok (QueueMetrics.mk (Finite rho) (Finite traffic_intensity)
            (Finite p0) (Finite erlang_c)
            (Finite lq) (Finite wq) (Finite l) (Finite w)
            (Finite (rho * 100)) true).

(** One turn of the loop of [get_state_probabilities]. *)
Definition state_entry (a : Q) (c : Z) (p0 : Q) (n : Z) : result StateEntry.t :=
  pn <- (if (n <? c)%Z then
           t <- power_over_factorial a n ;;
           Ok (t * p0)
         else
           p <- math_pow a n ;;
           f <- factorial c ;;
           cf <- float_of_int c ;;
           q <- math_pow cf (n - c) ;;
           ff <- float_of_int f ;;
           t <- fdiv p (ff * q) ;;
           Ok (t * p0)) ;;
  Ok (StateEntry.mk n pn (Z.max 0 (n - c))).

Fixpoint state_loop (a : Q) (c : Z) (p0 : Q) (ns : list Z)
    (probabilities : list StateEntry.t) : result (list StateEntry.t) :=
  match ns with
  | [] => Ok probabilities
  | n :: ns' =>
      e <- state_entry a c p0 n ;;
      state_loop a c p0 ns' (probabilities ++ [e])
  end.

Definition get_state_probabilities (lambda_rate mu_rate : Q) (c_servers : Z)
    (max_states : Z) : result StateProbabilities.t :=
  let lam := lambda_rate in
  let mu := mu_rate in
  let c := c_servers in
  a <- fdiv lam mu ;;
  cf <- float_of_int c ;;
  rho <- fdiv lam (cf * mu) ;;
  if Qle_bool 1 rho then Err UnstableSystemError
  else
    p0 <- calculate_p0 a c ;;
    probabilities <- state_loop a c p0 (range (max_states + 1)) [] ;;
    Ok (StateProbabilities.mk p0 probabilities a rho).

End Engine.

(** ** The simulation engine *)

Module SimulationResult.
Record t : Type := mk {
  total_arrivals : nat;
  total_served : nat;
  avg_wait_time_minutes : Q;
  max_wait_time_minutes : Q;
  wait_times_sample : list Q
}.
End SimulationResult.

(** [max(x, y)] on floats: the first argument unless the second is greater. *)
Definition py_max (x y : Q) : Q := if Qlt_bool x y then y else x.

(** [min(ks, key=key)]: the first element whose key is least. *)
Fixpoint min_by (key : Z -> Q) (best : Z) (ks : list Z) : Z :=
  match ks with
  | [] => best
  | k :: ks' => min_by key (if Qlt_bool (key k) (key best) then k else best) ks'
  end.

Definition py_min (key : Z -> Q) (ks : list Z) : result Z :=
  match ks with
  | [] => Err ValueError
  | k :: ks' => Ok (min_by key k ks')
  end.

(** [xs[i] = v] *)
Fixpoint setitem (xs : list Q) (i : nat) (v : Q) : list Q :=
  match xs, i with
  | [], _ => []
  | _ :: xs', O => v :: xs'
  | x :: xs', S j => x :: setitem xs' j v
  end.

Definition np_mean (xs : list Q) : Q :=
  fold_left Qplus xs 0 / inject_Z (Z.of_nat (length xs)).

Definition np_max (xs : list Q) : Q :=
  match xs with
  | [] => 0
  | x :: xs' => fold_left py_max xs' x
  end.

Section Simulation.

(** The global generator of numpy: [omega i scale] is what the [i]-th call
    of [np.random.exponential] returns when it is given [scale]; the
    position [i] is the state the code advances. *)
Variable omega : nat -> Q -> Q.

(** numpy refuses a negative scale. *)
Definition np_random_exponential (i : nat) (scale : Q) : result (Q * nat) :=
  if Qlt_bool scale 0 then Err ValueError else Ok (omega i scale, S i).

(** Lines 110-116: the [while] loop that fills [arrivals].  [None] is the
    model's fuel running out, not an outcome of the program. *)
Fixpoint arrival_loop (fuel : nat) (lam sim_time : Q) (i : nat)
    (current_time : Q) (arrivals : list Q) : option (result (list Q * nat)) :=
  if Qlt_bool current_time sim_time then
    match fuel with
    | O => None
    | S fuel' =>
        match (scale <- fdiv 1 lam ;; np_random_exponential i scale) with
        | Err e => Some (Err e)
        | Ok (interarrival, i') =>
            let current_time := current_time + interarrival in
            let arrivals :=
              if Qlt_bool current_time sim_time
              then arrivals ++ [current_time] else arrivals in
            arrival_loop fuel' lam sim_time i' current_time arrivals
        end
    end
  else Some (Ok (arrivals, i)).

(** Lines 121-128: the [for] loop over the arrivals.  The indices that
    [min] ranges over are those of [range(c)], and [servers_busy_until]
    has [c] entries. *)
Fixpoint service_loop (mu : Q) (c : Z) (arrivals : list Q) (i : nat)
    (servers_busy_until wait_times : list Q) : result (list Q * list Q * nat) :=
  match arrivals with
  | [] => Ok (wait_times, servers_busy_until, i)
  | arrival_time :: arrivals' =>
      earliest_server <-
        py_min (fun j => nth (Z.to_nat j) servers_busy_until 0) (range c) ;;
      let service_start :=
        py_max arrival_time (nth (Z.to_nat earliest_server) servers_busy_until 0) in
      let wait_time := service_start - arrival_time in
      let wait_times := wait_times ++ [wait_time] in
      scale <- fdiv 1 mu ;;
      d <- np_random_exponential i scale ;;
      let '(service_duration, i') := d in
      let servers_busy_until :=
        setitem servers_busy_until (Z.to_nat earliest_server)
          (service_start + service_duration) in
      service_loop mu c arrivals' i' servers_busy_until wait_times
  end.

Definition summarize (arrivals wait_times : list Q) : SimulationResult.t :=
  let avg_wait :=
    match wait_times with [] => 0 | _ => np_mean wait_times * 60 end in
  let max_wait :=
    match wait_times with [] => 0 | _ => np_max wait_times * 60 end in
  SimulationResult.mk (length arrivals) (length wait_times) avg_wait max_wait
    (map (fun w => w * 60) (firstn 10 wait_times)).

(** [simulate_queue], started with the generator at position [i0]; the
    result comes with the position the generator is left at. *)
Definition simulate_queue (fuel : nat) (i0 : nat) (params : QueueParameters.t)
    : option (result (SimulationResult.t * nat)) :=
  let lam := QueueParameters.lambda_rate params in
  let mu := QueueParameters.mu_rate params in
  let c := QueueParameters.c_servers params in
  match QueueParameters.simulation_time params with
  | None => Some (Err TypeError)
  | Some sim_time =>
      match arrival_loop fuel lam sim_time i0 0 [] with
      | None => None
      | Some (Err e) => Some (Err e)
      | Some (Ok (arrivals, i1)) =>
          let servers_busy_until := repeat 0 (Z.to_nat c) in
          Some (s <- service_loop mu c arrivals i1 servers_busy_until [] ;;
                let '(wait_times, _, i2) := s in
                Ok (summarize arrivals wait_times, i2))
      end
  end.

End Simulation.

(** * The formulas of the specification *)

(** [sigma n f] is the sum of [f k] for [k = 0 .. n-1]. *)
Fixpoint sigma (n : nat) (f : nat -> Q) : Q :=
  match n with
  | O => 0
  | S m => sigma m f + f m
  end.

(** [a^k / k!], with the factorial of the Standard Library. *)
Definition ratio (a : Q) (k : nat) : Q :=
  a ^ Z.of_nat k / inject_Z (Z.of_nat (fact k)).

(** [1 / ( sum_{k=0}^{c-1} a^k/k!  +  (a^c/c!) * (c/(c-a)) )] *)
Definition p0_formula (a : Q) (c : Z) : Q :=
  1 / (sigma (Z.to_nat c) (ratio a)
       + ratio a (Z.to_nat c) * (inject_Z c / (inject_Z c - a))).

(** [(a^c/c!) * p0 / (1 - rho)] *)
Definition erlang_c_formula (a : Q) (c : Z) (p0 rho : Q) : Q :=
  ratio a (Z.to_nat c) * p0 / (1 - rho).


(** [C / (c mu - lambda)], in minutes *)
Definition Wq_formula (lam mu : Q) (c : Z) (C : Q) : Q :=
  C / (inject_Z c * mu - lam) * 60.


(** The running clock of the arrival stream: the time reached from [t]
    after [k] gaps drawn with [scale], the first of them at position [i]
    of the generator. *)
Fixpoint clock (omega : nat -> Q -> Q) (scale : Q) (i : nat) (t : Q) (k : nat) : Q :=
  match k with
  | O => t
  | S j => clock omega scale (S i) (t + omega i scale) j
  end.

(** The values that the evaluation of [math.pow(a, k) / factorial(k)] turns
    into floats are in the range [R]. *)
Definition in_range (R : float_range) (a : Q) (k : Z) : Prop :=
  finite R (inject_Z k) = true
  /\ finite R (a ^ k) = true
  /\ finite R (inject_Z (fact_upto (Z.to_nat k))) = true.

(** The exceptions of Python's arithmetic, as opposed to the
    [HTTPException]s that the endpoints raise themselves. *)
Definition arithmetic (e : error) : Prop :=
  e = ZeroDivisionError \/ e = ValueError \/ e = OverflowError.


(** * Comparisons and divisions *)

Lemma Qlt_bool_iff (x y : Q) : Qlt_bool x y = true <-> x < y.
Proof.
  unfold Qlt_bool. rewrite negb_true_iff.
  destruct (Qle_bool y x) eqn:E.
  - apply Qle_bool_iff in E. split; [discriminate | intro; lra].
  - split; [intros _ | reflexivity].
    apply Qnot_le_lt. intro H. apply Qle_bool_iff in H. congruence.
Qed.

Lemma Qlt_bool_false (x y : Q) : Qlt_bool x y = false <-> y <= x.
Proof.
  unfold Qlt_bool. rewrite negb_false_iff. apply Qle_bool_iff.
Qed.

Lemma Qle_bool_false (x y : Q) : Qle_bool x y = false <-> y < x.
Proof.
  rewrite <- Qlt_bool_iff. unfold Qlt_bool.
  destruct (Qle_bool x y); simpl; split; congruence.
Qed.

Lemma Qeq_bool_false (x y : Q) : Qeq_bool x y = false <-> ~ x == y.
Proof.
  destruct (Qeq_bool x y) eqn:E.
  - apply Qeq_bool_iff in E. split; [discriminate | tauto].
  - split; [intros _ H | reflexivity].
    apply Qeq_bool_iff in H. congruence.
Qed.

Lemma fdiv_ok (x y : Q) : ~ y == 0 -> fdiv x y = Ok (x / y).
Proof.
  intro H. unfold fdiv. now rewrite (proj2 (Qeq_bool_false y 0) H).
Qed.

Lemma fdiv_inv (x y v : Q) : fdiv x y = Ok v -> ~ y == 0 /\ v = x / y.
Proof.
  unfold fdiv. destruct (Qeq_bool y 0) eqn:E; [discriminate |].
  intro H. injection H as <-. split; [now apply Qeq_bool_false | reflexivity].
Qed.

(** * Factorials *)

Lemma fact_upto_fact (n : nat) : fact_upto n = Z.of_nat (fact n).
Proof.
  induction n as [| n IH]; [reflexivity |].
  change (fact (S n)) with (S n * fact n)%nat.
  rewrite Nat2Z.inj_mul, <- IH. reflexivity.
Qed.

Lemma fact_upto_pos (n : nat) : (0 < fact_upto n)%Z.
Proof.
  rewrite fact_upto_fact. pose proof (lt_O_fact n). lia.
Qed.

Lemma inject_fact_nonzero (n : nat) : ~ inject_Z (fact_upto n) == 0.
Proof.
  pose proof (fact_upto_pos n) as H. unfold Qeq. simpl. lia.
Qed.

Lemma inject_fact_pos (n : nat) : 0 < inject_Z (Z.of_nat (fact n)).
Proof.
  rewrite <- fact_upto_fact. pose proof (fact_upto_pos n) as H.
  unfold Qlt. simpl. lia.
Qed.

Lemma factorial_ok (k : Z) :
  (0 <= k)%Z -> factorial k = Ok (fact_upto (Z.to_nat k)).
Proof.
  intro H. unfold factorial. now rewrite (proj2 (Z.ltb_ge k 0) H).
Qed.

Lemma factorial_inv (k f : Z) :
  factorial k = Ok f -> (0 <= k)%Z /\ f = fact_upto (Z.to_nat k).
Proof.
  unfold factorial. destruct (k <? 0)%Z eqn:E; [discriminate |].
  intro H. injection H as <-. split; [now apply Z.ltb_ge | reflexivity].
Qed.

(** * Sums *)

Lemma py_sum_snoc (term : Z -> result Q) (ks : list Z) (k : Z) (acc : Q) :
  py_sum term (ks ++ [k]) acc =
  (s <- py_sum term ks acc ;; t <- term k ;; Ok (s + t)).
Proof.
  revert acc. induction ks as [| k0 ks IH]; intro acc; simpl.
  - destruct (term k); reflexivity.
  - destruct (term k0) as [t0 |]; simpl; [apply IH | reflexivity].
Qed.

Lemma range_succ (n : nat) :
  range (Z.of_nat (S n)) = range (Z.of_nat n) ++ [Z.of_nat n].
Proof.
  unfold range. rewrite !Nat2Z.id, seq_S, map_app. reflexivity.
Qed.

Lemma range_length (n : Z) : List.length (range n) = Z.to_nat n.
Proof.
  unfold range. now rewrite length_map, length_seq.
Qed.

Lemma sigma_ext (n : nat) (f g : nat -> Q) :
  (forall k, (k < n)%nat -> f k == g k) -> sigma n f == sigma n g.
Proof.
  induction n as [| n IH]; intro H; simpl; [reflexivity |].
  rewrite IH, (H n) by (intros; try apply H; lia). reflexivity.
Qed.

Lemma sigma_shift (n : nat) (f : nat -> Q) :
  sigma (S n) f == f 0%nat + sigma n (fun k => f (S k)).
Proof.
  induction n as [| n IH]; [simpl; ring |].
  change (sigma (S (S n)) f) with (sigma (S n) f + f (S n)).
  rewrite IH. simpl. ring.
Qed.

Lemma sigma_first (n : nat) (f : nat -> Q) :
  (forall k, 0 <= f k) -> f 0%nat <= sigma (S n) f.
Proof.
  intro H. induction n as [| n IH]; simpl in *; [lra |].
  pose proof (H (S n)). lra.
Qed.

(** * What the arithmetic helpers return *)

Section Helpers.

Variable R : float_range.

Lemma to_float_inv (q v : Q) :
  to_float R q = Ok v -> finite R q = true /\ v = q.
Proof.
  unfold to_float. destruct (finite R q); [| discriminate].
  intro H. injection H as <-. split; reflexivity.
Qed.

Lemma to_float_finite (q : Q) : finite R q = true -> to_float R q = Ok q.
Proof.
  intro H. unfold to_float. now rewrite H.
Qed.

Lemma math_pow_inv (x : Q) (n : Z) (v : Q) :
  math_pow R x n = Ok v ->
  v = x ^ n /\ finite R (x ^ n) = true /\ finite R (inject_Z n) = true.
Proof.
  unfold math_pow, float_of_int.
  destruct (to_float R (inject_Z n)) as [nf |] eqn:En; simpl; [| discriminate].
  apply to_float_inv in En as [En _].
  destruct (Qeq_bool x 0 && (n <? 0)%Z); [discriminate |].
  intro H. apply to_float_inv in H as [H ->]. auto.
Qed.

Lemma math_pow_ok (x : Q) (n : Z) :
  (0 <= n)%Z -> finite R (inject_Z n) = true -> finite R (x ^ n) = true ->
  math_pow R x n = Ok (x ^ n).
Proof.
  intros Hn Hf Hp. unfold math_pow, float_of_int.
  rewrite (to_float_finite _ Hf). simpl.
  rewrite (proj2 (Z.ltb_ge n 0) Hn), andb_false_r.
  now apply to_float_finite.
Qed.

Lemma power_over_factorial_inv (a : Q) (k : Z) (v : Q) :
  power_over_factorial R a k = Ok v ->
  (0 <= k)%Z /\ v = ratio a (Z.to_nat k)
  /\ finite R (a ^ k) = true
  /\ finite R (inject_Z (fact_upto (Z.to_nat k))) = true.
Proof.
  unfold power_over_factorial, float_of_int.
  destruct (math_pow R a k) as [p |] eqn:Ep; simpl; [| discriminate].
  apply math_pow_inv in Ep as (-> & Hp & _).
  destruct (factorial k) as [f |] eqn:Ef; simpl; [| discriminate].
  apply factorial_inv in Ef as [Hk ->].
  destruct (to_float R _) as [ff |] eqn:Eff; simpl; [| discriminate].
  apply to_float_inv in Eff as [Hff ->].
  intro H. apply fdiv_inv in H as [_ ->].
  repeat split; auto.
  unfold ratio. now rewrite fact_upto_fact, Z2Nat.id.
Qed.

Lemma power_over_factorial_ok (a : Q) (k : Z) :
  (0 <= k)%Z ->
  finite R (inject_Z k) = true ->
  finite R (a ^ k) = true ->
  finite R (inject_Z (fact_upto (Z.to_nat k))) = true ->
  power_over_factorial R a k = Ok (ratio a (Z.to_nat k)).
Proof.
  intros Hk Hfk Hp Hf. unfold power_over_factorial, float_of_int.
  rewrite (math_pow_ok _ _ Hk Hfk Hp). simpl.
  rewrite (factorial_ok _ Hk). simpl.
  rewrite (to_float_finite _ Hf). simpl.
  rewrite fdiv_ok by apply inject_fact_nonzero.
  unfold ratio. now rewrite fact_upto_fact, Z2Nat.id.
Qed.

End Helpers.

(** * Evaluation within the range *)

Lemma power_over_factorial_in_range (R : float_range) (a : Q) (k : Z) :
  (0 <= k)%Z -> in_range R a k ->
  power_over_factorial R a k = Ok (ratio a (Z.to_nat k)).
Proof.
  intros Hk (H1 & H2 & H3). now apply power_over_factorial_ok.
Qed.

Lemma py_sum_in_range (R : float_range) (a : Q) (c : Z) :
  (forall k, (0 <= k < c)%Z -> in_range R a k) ->
  py_sum (power_over_factorial R a) (range c) 0
  = Ok (sigma (Z.to_nat c) (ratio a)).
Proof.
  intro H.
  assert (E : range c = range (Z.of_nat (Z.to_nat c)))
    by (unfold range; now rewrite Nat2Z.id).
  assert (H' : forall k, (k < Z.to_nat c)%nat -> in_range R a (Z.of_nat k))
    by (intros k Hk; apply H; lia).
  rewrite E. clear E H.
  induction (Z.to_nat c) as [| n IH]; [reflexivity |].
  rewrite range_succ, py_sum_snoc, IH by (intros; apply H'; lia). simpl.
  rewrite power_over_factorial_in_range by (try apply H'; lia). simpl.
  now rewrite Nat2Z.id.
Qed.

Lemma in_range_unbounded (a : Q) (k : Z) : in_range unbounded a k.
Proof.
  repeat split.
Qed.


Lemma ratio_nonneg (a : Q) (k : nat) : 0 <= a -> 0 <= ratio a k.
Proof.
  intro Ha. unfold ratio.
  apply Qle_shift_div_l; [apply inject_fact_pos |].
  rewrite Qmult_0_l. now apply Qpower_0_le.
Qed.

Lemma ratio_0 (a : Q) : ratio a 0 == 1.
Proof. reflexivity. Qed.

Lemma inject_Z_pos (c : Z) : 0 < inject_Z c <-> (0 < c)%Z.
Proof.
  unfold Qlt. simpl. lia.
Qed.

(** The denominator of [p0_formula] is at least 1 on a stable load. *)
Lemma p0_denominator_ge_1 (a : Q) (c : Z) :
  0 <= a -> a < inject_Z c ->
  1 <= sigma (Z.to_nat c) (ratio a)
       + ratio a (Z.to_nat c) * (inject_Z c / (inject_Z c - a)).
Proof.
  intros Ha Hc.
  assert (Hc0 : (0 < c)%Z) by (apply inject_Z_pos; lra).
  assert (Hs : 1 <= sigma (Z.to_nat c) (ratio a)).
  { destruct (Z.to_nat c) as [| m] eqn:Em; [lia |].
    rewrite <- (ratio_0 a). apply sigma_first.
    intro k. now apply ratio_nonneg. }
  assert (Hr : 0 <= ratio a (Z.to_nat c)) by now apply ratio_nonneg.
  assert (Hq : 0 <= inject_Z c / (inject_Z c - a)).
  { apply Qle_shift_div_l; lra. }
  pose proof (Qmult_le_0_compat _ _ Hr Hq). lra.
Qed.

Lemma calculate_p0_in_range (R : float_range) (a : Q) (c : Z) :
  0 <= a -> a < inject_Z c ->
  (forall k, (0 <= k <= c)%Z -> in_range R a k) ->
  calculate_p0 R a c = Ok (p0_formula a c).
Proof.
  intros Ha Hc Hr.
  assert (Hc0 : (0 < c)%Z) by (apply inject_Z_pos; lra).
  pose proof (p0_denominator_ge_1 a c Ha Hc) as Hd.
  unfold calculate_p0.
  rewrite py_sum_in_range by (intros; apply Hr; lia). simpl.
  rewrite power_over_factorial_in_range by (try apply Hr; lia). simpl.
  unfold float_of_int.
  rewrite to_float_finite by (apply (Hr c); lia). simpl.
  rewrite fdiv_ok by lra. simpl.
  rewrite fdiv_ok by lra. reflexivity.
Qed.


(** * The empty-state probability and the Erlang-C probability *)

Lemma calculate_p0_inv (R : float_range) (a : Q) (c : Z) (p0 : Q) :
  calculate_p0 R a c = Ok p0 ->
  power_over_factorial R a c = Ok (ratio a (Z.to_nat c)).
Proof.
  unfold calculate_p0.
  destruct (py_sum _ _ _) as [s |]; simpl; [| discriminate].
  destruct (power_over_factorial R a c) as [t |] eqn:Et; simpl; [| discriminate].
  intros _. apply power_over_factorial_inv in Et as (_ & -> & _). reflexivity.
Qed.

Lemma calculate_erlang_c_saturated (R : float_range) (a : Q) (c : Z) (rho : Q) :
  1 <= rho -> calculate_erlang_c R a c rho = Ok 1.
Proof.
  intro H. unfold calculate_erlang_c.
  now rewrite (proj2 (Qle_bool_iff 1 rho) H).
Qed.

Lemma calculate_erlang_c_stable (R : float_range) (a : Q) (c : Z) (rho p0 : Q) :
  rho < 1 -> calculate_p0 R a c = Ok p0 ->
  calculate_erlang_c R a c rho = Ok (erlang_c_formula a c p0 rho).
Proof.
  intros H Hp. unfold calculate_erlang_c.
  rewrite (proj2 (Qle_bool_false 1 rho) H), Hp. simpl.
  rewrite (calculate_p0_inv _ _ _ _ Hp). simpl.
  rewrite fdiv_ok by lra. reflexivity.
Qed.

Lemma calculate_erlang_c_raises (R : float_range) (a : Q) (c : Z) (rho : Q) (e : error) :
  rho < 1 -> calculate_p0 R a c = Err e ->
  calculate_erlang_c R a c rho = Err e.
Proof.
  intros H Hp. unfold calculate_erlang_c.
  now rewrite (proj2 (Qle_bool_false 1 rho) H), Hp.
Qed.

(** * [analyze_queue] on valid parameters *)

Section Analyze.

Variables (lam mu : Q) (c : Z) (horizon : option Q).
Hypothesis lam_pos : 0 < lam.
Hypothesis mu_pos : 0 < mu.
Hypothesis c_pos : (0 < c)%Z.

Let params := QueueParameters.mk lam mu c horizon.
Let rho := lam / (inject_Z c * mu).
Let a := lam / mu.

Lemma capacity_pos : 0 < inject_Z c * mu.
Proof.
  apply Qmult_lt_0_compat; [now apply inject_Z_pos | exact mu_pos].
Qed.

Lemma valid_parameters_pass :
  Qle_bool lam 0 || Qle_bool mu 0 || (c <=? 0)%Z = false.
Proof.
  rewrite (proj2 (Qle_bool_false lam 0) lam_pos).
  rewrite (proj2 (Qle_bool_false mu 0) mu_pos).
  rewrite (proj2 (Z.leb_gt c 0) c_pos). reflexivity.
Qed.

Lemma rho_defined : fdiv lam (inject_Z c * mu) = Ok rho.
Proof.
  pose proof capacity_pos. apply fdiv_ok. lra.
Qed.

Lemma load_defined : fdiv lam mu = Ok a.
Proof.
  apply fdiv_ok. lra.
Qed.

Lemma stable_load : rho < 1 -> lam < inject_Z c * mu /\ 0 <= a /\ a < inject_Z c.
Proof.
  pose proof capacity_pos as Hc. intro H. subst rho a.
  assert (Hc0 : 0 < inject_Z c) by now apply inject_Z_pos.
  assert (E : lam == lam / (inject_Z c * mu) * (inject_Z c * mu))
    by (field; repeat split; lra).
  assert (L : lam < inject_Z c * mu).
  { pose proof (Qmult_lt_compat_r _ _ _ Hc H) as L.
    rewrite <- E, Qmult_1_l in L. exact L. }
  repeat split; [exact L | |].
  - apply Qle_shift_div_l; lra.
  - apply Qlt_shift_div_r; lra.
Qed.

Variable R : float_range.
Hypothesis c_finite : finite R (inject_Z c) = true.

Lemma analyze_queue_unstable_value :
  1 <= rho ->
  analyze_queue R params =
  Ok (QueueMetrics.mk (Finite rho) (Finite a) (Finite 0) (Finite 1)
        PosInf PosInf PosInf PosInf (Finite (rho * 100)) false).
Proof.
  intro H. unfold analyze_queue. cbn [params QueueParameters.lambda_rate
    QueueParameters.mu_rate QueueParameters.c_servers].
  rewrite valid_parameters_pass.
  unfold float_of_int. rewrite (to_float_finite R _ c_finite). cbn [bind].
  rewrite rho_defined. cbn [bind]. rewrite load_defined. cbn [bind].
  now rewrite (proj2 (Qlt_bool_false rho 1) H).
Qed.

Let Wq_value := Wq_formula lam mu c (erlang_c_formula a c (p0_formula a c) rho).

Lemma analyze_queue_stable_value :
  rho < 1 ->
  (forall k, (0 <= k <= c)%Z -> in_range R a k) ->
  analyze_queue R params =
  Ok (QueueMetrics.mk (Finite rho) (Finite a)
        (Finite (p0_formula a c))
        (Finite (erlang_c_formula a c (p0_formula a c) rho))
        (Finite (lam * (Wq_value / 60)))
        (Finite Wq_value)
        (Finite (lam * ((Wq_value + 60 / mu) / 60)))
        (Finite (Wq_value + 60 / mu))
        (Finite (rho * 100)) true).
Proof.
  intros H Hr. destruct (stable_load H) as (Hl & Ha0 & Hac).
  pose proof (calculate_p0_in_range R a c Ha0 Hac Hr) as Ep.
  unfold analyze_queue. cbn [params QueueParameters.lambda_rate
    QueueParameters.mu_rate QueueParameters.c_servers].
  rewrite valid_parameters_pass.
  unfold float_of_int. rewrite (to_float_finite R _ c_finite). cbn [bind].
  rewrite rho_defined. cbn [bind]. rewrite load_defined. cbn [bind].
  rewrite (proj2 (Qlt_bool_iff rho 1) H). cbn [negb].
  rewrite Ep. cbn [bind].
  rewrite (calculate_erlang_c_stable R a c rho _ H Ep). cbn [bind].
  rewrite (fdiv_ok _ (inject_Z c * mu - lam)) by lra. cbn [bind].
  rewrite (fdiv_ok _ 60) by (intro E; discriminate E). cbn [bind].
  rewrite (fdiv_ok 60 mu) by lra. cbn [bind].
  rewrite (fdiv_ok _ 60) by (intro E; discriminate E). reflexivity.
Qed.

End Analyze.


(** * The state distribution on valid parameters *)



Lemma range_nonneg (m : Z) : Forall (fun n => 0 <= n)%Z (range m).
Proof.
  unfold range. apply Forall_forall. intros n Hn.
  apply in_map_iff in Hn as (k & <- & _). lia.
Qed.

Lemma range_nth_error (m n : Z) :
  (0 <= n < m)%Z -> nth_error (range m) (Z.to_nat n) = Some n.
Proof.
  intro H. unfold range.
  rewrite nth_error_map, nth_error_seq.
  destruct (Nat.ltb_spec (Z.to_nat n) (Z.to_nat m)) as [_ | L]; [| lia].
  simpl. now rewrite Z2Nat.id.
Qed.


(** * Which exceptions the engine can raise *)

Lemma bind_raises {A B : Type} (P : error -> Prop)
    (m : result A) (k : A -> result B) (e : error) :
  (forall e', m = Err e' -> P e') ->
  (forall x e', m = Ok x -> k x = Err e' -> P e') ->
  bind m k = Err e -> P e.
Proof.
  intros Hm Hk. destruct m as [x | e0]; simpl; intro H.
  - now apply (Hk x).
  - injection H as <-. now apply Hm.
Qed.

Lemma fdiv_raises (x y : Q) (e : error) : fdiv x y = Err e -> arithmetic e.
Proof.
  unfold fdiv, arithmetic. destruct (Qeq_bool y 0); [| discriminate].
  intro H. injection H as <-. auto.
Qed.

Lemma factorial_raises (n : Z) (e : error) : factorial n = Err e -> arithmetic e.
Proof.
  unfold factorial, arithmetic. destruct (n <? 0)%Z; [| discriminate].
  intro H. injection H as <-. auto.
Qed.

Section Raises.

Variable R : float_range.

Lemma to_float_raises (q : Q) (e : error) : to_float R q = Err e -> arithmetic e.
Proof.
  unfold to_float, arithmetic. destruct (finite R q); [discriminate |].
  intro H. injection H as <-. auto.
Qed.

Lemma math_pow_raises (x : Q) (n : Z) (e : error) :
  math_pow R x n = Err e -> arithmetic e.
Proof.
  unfold math_pow, float_of_int. apply bind_raises.
  - apply to_float_raises.
  - intros _ e' _. destruct (Qeq_bool x 0 && (n <? 0)%Z).
    + intro H. injection H as <-. unfold arithmetic. auto.
    + apply to_float_raises.
Qed.

Lemma power_over_factorial_raises (a : Q) (k : Z) (e : error) :
  power_over_factorial R a k = Err e -> arithmetic e.
Proof.
  unfold power_over_factorial, float_of_int.
  apply bind_raises; [apply math_pow_raises | intros p e1 _].
  apply bind_raises; [apply factorial_raises | intros f e2 _].
  apply bind_raises; [apply to_float_raises | intros ff e3 _].
  apply fdiv_raises.
Qed.

Lemma py_sum_raises (P : error -> Prop) (term : Z -> result Q)
    (ks : list Z) (acc : Q) (e : error) :
  (forall k e', In k ks -> term k = Err e' -> P e') ->
  py_sum term ks acc = Err e -> P e.
Proof.
  revert acc e. induction ks as [| k ks IH]; intros acc e Hterm; simpl.
  - discriminate.
  - apply bind_raises.
    + intros e'. apply Hterm. now left.
    + intros t e' _. apply IH. intros k' e'' Hin. apply Hterm. now right.
Qed.

Lemma calculate_p0_raises (a : Q) (c : Z) (e : error) :
  calculate_p0 R a c = Err e -> arithmetic e.
Proof.
  unfold calculate_p0, float_of_int.
  apply bind_raises.
  { intro e'. apply py_sum_raises. intros k e'' _.
    apply power_over_factorial_raises. }
  intros s e1 _.
  apply bind_raises; [apply power_over_factorial_raises | intros t e2 _].
  apply bind_raises; [apply to_float_raises | intros cf e3 _].
  apply bind_raises; [apply fdiv_raises | intros r e4 _].
  apply fdiv_raises.
Qed.




(** [analyze_queue] checks the parameters before anything else. *)
Lemma analyze_queue_validates (params : QueueParameters.t) :
  QueueParameters.lambda_rate params <= 0
  \/ QueueParameters.mu_rate params <= 0
  \/ (QueueParameters.c_servers params <= 0)%Z ->
  analyze_queue R params = Err InvalidParameterError.
Proof.
  intro H. unfold analyze_queue.
  destruct H as [H | [H | H]].
  - now rewrite (proj2 (Qle_bool_iff _ _) H).
  - rewrite (proj2 (Qle_bool_iff _ _) H), orb_true_r. reflexivity.
  - rewrite (proj2 (Z.leb_le _ _) H), orb_true_r. reflexivity.
Qed.

End Raises.

(** * The arrival stream *)

Section Arrivals.

Variable omega : nat -> Q -> Q.
Variables lam sim_time : Q.

Let tick := clock omega (1 / lam).

Lemma clock_sum (scale : Q) (k i : nat) (t : Q) :
  clock omega scale i t k == t + sigma k (fun j => omega (i + j)%nat scale).
Proof.
  revert i t. induction k as [| k IH]; intros i t.
  - simpl. ring.
  - change (clock omega scale i t (S k))
      with (clock omega scale (S i) (t + omega i scale) k).
    rewrite IH, sigma_shift, Nat.add_0_r.
    rewrite (sigma_ext k (fun j => omega (i + S j)%nat scale)
               (fun j => omega (S i + j)%nat scale)).
    + ring.
    + intros j _. now rewrite Nat.add_succ_r.
Qed.

Lemma draw_ok (i : nat) :
  0 < lam ->
  (scale <- fdiv 1 lam ;; np_random_exponential omega i scale)
  = Ok (omega i (1 / lam), S i).
Proof.
  intro H. rewrite fdiv_ok by lra. cbn [bind]. unfold np_random_exponential.
  assert (P : 0 <= 1 / lam) by (apply Qle_shift_div_l; lra).
  now rewrite (proj2 (Qlt_bool_false _ _) P).
Qed.

Lemma draw_inv (i : nat) (gap : Q) (i' : nat) :
  (scale <- fdiv 1 lam ;; np_random_exponential omega i scale) = Ok (gap, i') ->
  gap = omega i (1 / lam) /\ i' = S i.
Proof.
  destruct (fdiv 1 lam) as [scale |] eqn:E; cbn [bind]; [| discriminate].
  apply fdiv_inv in E as [_ ->]. unfold np_random_exponential.
  destruct (Qlt_bool (1 / lam) 0); [discriminate |].
  intro H. injection H as <- <-. auto.
Qed.

Lemma arrival_loop_stopped (fuel i : nat) (t : Q) (arrivals : list Q) :
  sim_time <= t ->
  arrival_loop omega fuel lam sim_time i t arrivals = Some (Ok (arrivals, i)).
Proof.
  intro H. destruct fuel; simpl; now rewrite (proj2 (Qlt_bool_false _ _) H).
Qed.

Lemma stream_shift (i : nat) (t : Q) (n : nat) :
  map (tick i t) (seq 2 n) = map (tick (S i) (t + omega i (1 / lam))) (seq 1 n).
Proof.
  rewrite <- (seq_shift n 1), map_map. reflexivity.
Qed.

(** What the loop returns when it returns. *)
Lemma arrival_loop_inv (fuel : nat) :
  forall (i : nat) (t : Q) (arrivals out : list Q) (i' : nat),
  arrival_loop omega fuel lam sim_time i t arrivals = Some (Ok (out, i')) ->
  (sim_time <= t /\ out = arrivals /\ i' = i) \/
  (exists n,
     (forall k, (k <= n)%nat -> tick i t k < sim_time)
     /\ sim_time <= tick i t (S n)
     /\ out = arrivals ++ map (tick i t) (seq 1 n)
     /\ i' = (i + S n)%nat).
Proof.
  induction fuel as [| fuel IH]; intros i t arrivals out i'; simpl.
  - destruct (Qlt_bool t sim_time) eqn:E; [discriminate |].
    intro H. injection H as <- <-. left. split; [now apply Qlt_bool_false | auto].
  - destruct (Qlt_bool t sim_time) eqn:E.
    2:{ intro H. injection H as <- <-. left.
        split; [now apply Qlt_bool_false | auto]. }
    apply Qlt_bool_iff in E.
    destruct (bind (fdiv 1 lam) _) as [[gap j] |] eqn:D; [| discriminate].
    apply draw_inv in D as [-> ->].
    destruct (Qlt_bool (t + omega i (1 / lam)) sim_time) eqn:E2;
      intro H; right; apply IH in H; clear IH;
      destruct H as [(Hs & -> & ->) | (n & Hlt & Hge & -> & ->)].
    + apply Qlt_bool_iff in E2. lra.
    + exists (S n). repeat split.
      * intros [| k] Hk; [exact E | apply (Hlt k); lia].
      * exact Hge.
      * rewrite <- app_assoc. simpl. now rewrite stream_shift.
      * lia.
    + exists 0%nat. rewrite app_nil_r. repeat split; [| exact Hs | lia].
      intros k Hk. replace k with 0%nat by lia. exact E.
    + apply Qlt_bool_false in E2. pose proof (Hlt 0%nat (Nat.le_0_l n)) as C.
      unfold tick in C. simpl in C. lra.
Qed.

(** The loop returns once the clock has reached the horizon. *)
Lemma arrival_loop_returns (n : nat) :
  0 < lam ->
  forall (i : nat) (t : Q) (arrivals : list Q),
  sim_time <= tick i t n ->
  exists out i',
    arrival_loop omega n lam sim_time i t arrivals = Some (Ok (out, i')).
Proof.
  intro Hl. induction n as [| n IH]; intros i t arrivals H.
  - exists arrivals, i. now apply arrival_loop_stopped.
  - destruct (Qlt_le_dec t sim_time) as [L | G].
    + simpl. rewrite (proj2 (Qlt_bool_iff _ _) L), (draw_ok i Hl).
      apply IH. exact H.
    + exists arrivals, i. now apply arrival_loop_stopped.
Qed.

End Arrivals.

(** * Serving the arrivals *)

Lemma py_max_ge (x y : Q) : x <= py_max x y.
Proof.
  unfold py_max. destruct (Qlt_bool x y) eqn:E; [| lra].
  apply Qlt_bool_iff in E. lra.
Qed.

Lemma min_by_in (key : Z -> Q) (ks : list Z) (best : Z) :
  min_by key best ks = best \/ In (min_by key best ks) ks.
Proof.
  revert best. induction ks as [| k ks IH]; intro best; simpl; [now left |].
  destruct (IH (if Qlt_bool (key k) (key best) then k else best)) as [E | I].
  - rewrite E. destruct (Qlt_bool (key k) (key best)); auto.
  - auto.
Qed.

(** The server that [min] picks is one of the [c] servers. *)
Lemma earliest_server_in_range (key : Z -> Q) (c j : Z) :
  py_min key (range c) = Ok j -> (0 <= j < c)%Z.
Proof.
  unfold py_min. destruct (range c) as [| k ks] eqn:E; [discriminate |].
  intro H. injection H as <-.
  assert (I : In (min_by key k ks) (range c)).
  { rewrite E. destruct (min_by_in key ks k) as [-> | I]; [now left | now right]. }
  unfold range in I. apply in_map_iff in I as (n & <- & I).
  apply in_seq in I. lia.
Qed.

Lemma py_min_returns (key : Z -> Q) (c : Z) :
  (0 < c)%Z -> exists j, py_min key (range c) = Ok j.
Proof.
  intro H. unfold py_min. destruct (range c) as [| k ks] eqn:E.
  - pose proof (range_length c) as L. rewrite E in L. simpl in L. lia.
  - eauto.
Qed.

Lemma setitem_length (xs : list Q) (i : nat) (v : Q) :
  List.length (setitem xs i v) = List.length xs.
Proof.
  revert i. induction xs as [| x xs IH]; intros [| i]; simpl; auto.
Qed.


Lemma fold_max_ge (xs : list Q) (acc : Q) : acc <= fold_left py_max xs acc.
Proof.
  revert acc. induction xs as [| x xs IH]; intro acc; simpl; [lra |].
  pose proof (py_max_ge acc x). pose proof (IH (py_max acc x)). lra.
Qed.


Section Service.

Variable omega : nat -> Q -> Q.
Variables (mu : Q) (c : Z).



End Service.


(** * The range of a double *)

Lemma finite_binary64_iff (q : Q) :
  finite binary64 q = true <-> Qabs q < DBL_OVERFLOW.
Proof.
  apply Qlt_bool_iff.
Qed.

Lemma finite_binary64_int (n : Z) :
  finite binary64 (inject_Z n) = true <-> (Z.abs n < 2 ^ 1024 - 2 ^ 970)%Z.
Proof.
  rewrite finite_binary64_iff. unfold DBL_OVERFLOW.
  generalize (2 ^ 1024 - 2 ^ 970)%Z. intro D.
  unfold Qlt, inject_Z, Qabs. cbn [Qnum Qden]. lia.
Qed.

Lemma fact_upto_mono (n m : nat) : (n <= m)%nat -> (fact_upto n <= fact_upto m)%Z.
Proof.
  induction 1 as [| m _ IH]; [lia |].
  change (fact_upto (S m)) with (Z.of_nat (S m) * fact_upto m)%Z.
  pose proof (fact_upto_pos m). nia.
Qed.

Lemma factorial_170_fits : (fact_upto 170 < 2 ^ 1024 - 2 ^ 970)%Z.
Proof.
  vm_compute. reflexivity.
Qed.

Lemma factorial_171_overflows : (2 ^ 1024 - 2 ^ 970 <= fact_upto 171)%Z.
Proof.
  vm_compute. discriminate.
Qed.

Lemma factorial_fits (n : nat) :
  (n <= 170)%nat -> finite binary64 (inject_Z (fact_upto n)) = true.
Proof.
  intro H. apply finite_binary64_int.
  pose proof (fact_upto_mono n 170 H). pose proof (fact_upto_pos n).
  pose proof factorial_170_fits. lia.
Qed.

Lemma factorial_overflows (n : nat) :
  (171 <= n)%nat -> finite binary64 (inject_Z (fact_upto n)) = false.
Proof.
  intro H. apply not_true_is_false. rewrite finite_binary64_int.
  pose proof (fact_upto_mono 171 n H). pose proof factorial_171_overflows.
  lia.
Qed.

Lemma Qpower_succ (a : Q) (n : nat) : a ^ Z.of_nat (S n) == a * a ^ Z.of_nat n.
Proof.
  rewrite Nat2Z.inj_succ, <- Z.add_1_l, Qpower_plus' by lia.
  now rewrite Qpower_1_r.
Qed.

Lemma Qpower_le_1 (a : Q) (k : Z) : 0 <= a -> a <= 1 -> (0 <= k)%Z -> a ^ k <= 1.
Proof.
  intros H0 H1 Hk. rewrite <- (Z2Nat.id k Hk).
  induction (Z.to_nat k) as [| n IH]; [simpl; lra |].
  rewrite Qpower_succ.
  pose proof (Qpower_0_le a (Z.of_nat n) H0) as P.
  pose proof (Qmult_le_compat_r _ _ _ H1 P). lra.
Qed.

(** A power of the load is no larger than the last one, or than 1. *)
Lemma Qpower_le_last (a : Q) (k c : Z) :
  0 <= a -> (0 <= k <= c)%Z -> a ^ k <= 1 \/ a ^ k <= a ^ c.
Proof.
  intros Ha Hk. destruct (Qlt_le_dec a 1) as [L | G].
  - left. apply Qpower_le_1; (lra || lia).
  - right. apply Qpower_le_compat_l; (lra || lia).
Qed.

Lemma in_range_binary64 (a : Q) (c k : Z) :
  0 <= a -> (c <= 170)%Z -> a ^ c < DBL_OVERFLOW -> (0 <= k <= c)%Z ->
  in_range binary64 a k.
Proof.
  intros Ha Hc Hp Hk. repeat split.
  - apply finite_binary64_int.
    assert (170 < 2 ^ 1024 - 2 ^ 970)%Z by (vm_compute; reflexivity). lia.
  - apply finite_binary64_iff.
    rewrite Qabs_pos by now apply Qpower_0_le.
    destruct (Qpower_le_last a k c Ha Hk) as [L | L]; [| lra].
    assert (1 < DBL_OVERFLOW) by (vm_compute; reflexivity). lra.
  - apply factorial_fits. lia.
Qed.

(** * Leaving the range of a double *)

Lemma power_over_factorial_overflow (R : float_range) (a : Q) (k : Z) (e : error) :
  (0 <= k)%Z -> power_over_factorial R a k = Err e -> e = OverflowError.
Proof.
  intro Hk. unfold power_over_factorial, math_pow, float_of_int, to_float.
  destruct (finite R (inject_Z k)); cbn [bind]; [| congruence].
  rewrite (proj2 (Z.ltb_ge k 0) Hk), andb_false_r.
  destruct (finite R (a ^ k)); cbn [bind]; [| congruence].
  rewrite (factorial_ok k Hk). cbn [bind].
  destruct (finite R (inject_Z (fact_upto (Z.to_nat k)))); cbn [bind];
    [| congruence].
  rewrite fdiv_ok by apply inject_fact_nonzero. discriminate.
Qed.

Lemma calculate_p0_overflows (a : Q) (c : Z) :
  (171 <= c)%Z -> calculate_p0 binary64 a c = Err OverflowError.
Proof.
  intro Hc. unfold calculate_p0.
  destruct (py_sum _ _ _) as [s | e] eqn:Es; cbn [bind].
  - destruct (power_over_factorial binary64 a c) as [t | e] eqn:Et; cbn [bind].
    + apply power_over_factorial_inv in Et as (_ & _ & _ & F).
      rewrite factorial_overflows in F by lia. discriminate.
    + apply power_over_factorial_overflow in Et; [now subst | lia].
  - f_equal. revert Es.
    apply (py_sum_raises (fun e' => e' = OverflowError)). intros k e' Hin.
    pose proof (range_nonneg c) as F. rewrite Forall_forall in F.
    apply power_over_factorial_overflow. now apply F.
Qed.

Lemma calculate_erlang_c_overflows (a : Q) (c : Z) (rho : Q) :
  (171 <= c)%Z -> rho < 1 ->
  calculate_erlang_c binary64 a c rho = Err OverflowError.
Proof.
  intros Hc Hr. apply calculate_erlang_c_raises; [exact Hr |].
  now apply calculate_p0_overflows.
Qed.

Lemma calculate_p0_binary64 (a : Q) (c : Z) :
  0 <= a -> a < inject_Z c -> (c <= 170)%Z -> a ^ c < DBL_OVERFLOW ->
  calculate_p0 binary64 a c = Ok (p0_formula a c).
Proof.
  intros Ha Hac Hc Hp. apply calculate_p0_in_range; [exact Ha | exact Hac |].
  intros k Hk. now apply (in_range_binary64 a c k).
Qed.

(** * Runs within a range agree with exact arithmetic *)

Lemma bind_transfer {A B : Type} (m m' : result A) (k k' : A -> result B) (v : B) :
  (forall x, m = Ok x -> m' = Ok x) ->
  (forall x, m = Ok x -> k x = Ok v -> k' x = Ok v) ->
  bind m k = Ok v -> bind m' k' = Ok v.
Proof.
  intros Hm Hk. destruct m as [x | e]; simpl; [| discriminate].
  rewrite (Hm x eq_refl). simpl. now apply Hk.
Qed.

Section Transfer.

Variable R : float_range.

Lemma to_float_transfer (q v : Q) :
  to_float R q = Ok v -> to_float unbounded q = Ok v.
Proof.
  intro H. apply to_float_inv in H as [_ ->]. reflexivity.
Qed.

Lemma math_pow_transfer (x : Q) (n : Z) (v : Q) :
  math_pow R x n = Ok v -> math_pow unbounded x n = Ok v.
Proof.
  unfold math_pow, float_of_int.
  apply bind_transfer; [apply to_float_transfer | intros _ _].
  destruct (Qeq_bool x 0 && (n <? 0)%Z); [discriminate |].
  apply to_float_transfer.
Qed.

Lemma power_over_factorial_transfer (a : Q) (k : Z) (v : Q) :
  power_over_factorial R a k = Ok v -> power_over_factorial unbounded a k = Ok v.
Proof.
  unfold power_over_factorial, float_of_int.
  apply bind_transfer; [apply math_pow_transfer | intros p _].
  apply bind_transfer; [auto | intros f _].
  apply bind_transfer; [apply to_float_transfer | auto].
Qed.

Lemma py_sum_transfer (term term' : Z -> result Q) (ks : list Z) (acc v : Q) :
  (forall k y, term k = Ok y -> term' k = Ok y) ->
  py_sum term ks acc = Ok v -> py_sum term' ks acc = Ok v.
Proof.
  intro H. revert acc. induction ks as [| k ks IH]; intro acc; simpl; [auto |].
  apply bind_transfer; [apply H | intros t _; apply IH].
Qed.

Lemma calculate_p0_transfer (a : Q) (c : Z) (v : Q) :
  calculate_p0 R a c = Ok v -> calculate_p0 unbounded a c = Ok v.
Proof.
  unfold calculate_p0, float_of_int.
  apply bind_transfer.
  { intro s. apply py_sum_transfer. apply power_over_factorial_transfer. }
  intros s _.
  apply bind_transfer; [apply power_over_factorial_transfer | intros t _].
  apply bind_transfer; [apply to_float_transfer | auto].
Qed.

Lemma calculate_erlang_c_transfer (a : Q) (c : Z) (rho v : Q) :
  calculate_erlang_c R a c rho = Ok v -> calculate_erlang_c unbounded a c rho = Ok v.
Proof.
  unfold calculate_erlang_c. destruct (Qle_bool 1 rho); [auto |].
  apply bind_transfer; [apply calculate_p0_transfer | intros p _].
  apply bind_transfer; [apply power_over_factorial_transfer | auto].
Qed.

Lemma analyze_queue_transfer (params : QueueParameters.t) (m : QueueMetrics.t) :
  analyze_queue R params = Ok m -> analyze_queue unbounded params = Ok m.
Proof.
  unfold analyze_queue, float_of_int.
  destruct (_ || _); [discriminate |].
  apply bind_transfer; [apply to_float_transfer | intros cf _].
  apply bind_transfer; [auto | intros rho _].
  apply bind_transfer; [auto | intros a _].
  destruct (negb _); [auto |].
  apply bind_transfer; [apply calculate_p0_transfer | intros p _].
  apply bind_transfer; [apply calculate_erlang_c_transfer | auto].
Qed.




End Transfer.

(** * The scenarios of the specification, evaluated *)

(** [lam = 2], [mu = 3], [c = 1]: a stable M/M/1 queue with [rho = 2/3],
    [erlang_c = rho], a wait of 40 minutes and [L = a / (1 - rho) = 2]. *)
Example analyze_queue_mm1 :
  exists m,
    analyze_queue binary64 (QueueParameters.mk 2 3 1 (Some 100)) = Ok m
    /\ QueueMetrics.stable m = true
    /\ (exists C, QueueMetrics.erlang_c m = Finite C /\ C == 2 # 3)
    /\ (exists Wq, QueueMetrics.wq m = Finite Wq /\ Wq == 40)
    /\ (exists L, QueueMetrics.l m = Finite L /\ L == 2).
Proof.
  eexists. split; [vm_compute; reflexivity |].
  cbn [QueueMetrics.stable QueueMetrics.erlang_c QueueMetrics.wq QueueMetrics.l].
  repeat split; eexists; (split; [reflexivity | reflexivity]).
Qed.

(** [lam = 10], [mu = 2], [c = 3]: [rho = 5/3], the saturated result. *)
Example analyze_queue_overloaded :
  analyze_queue binary64 (QueueParameters.mk 10 2 3 (Some 100)) =
  Ok (QueueMetrics.mk (Finite (10 # 6)) (Finite (10 # 2)) (Finite 0) (Finite 1)
        PosInf PosInf PosInf PosInf (Finite (1000 # 6)) false).
Proof.
  vm_compute. reflexivity.
Qed.

Example get_state_probabilities_overloaded :
  get_state_probabilities binary64 10 2 3 20 = Err UnstableSystemError.
Proof.
  vm_compute. reflexivity.
Qed.

(** Two servers, one arrival per time unit up to the horizon 5, each
    served for two time units: nobody waits. *)
Example simulate_queue_regular :
  simulate_queue (fun i scale => if Nat.ltb i 5 then scale else 2 * scale) 10 0
    (QueueParameters.mk 1 1 2 (Some 5))
  = Some (Ok (SimulationResult.mk 4 4 (0 # 4) 0 [0; 0; 0; 0], 9%nat)).
Proof.
  vm_compute. reflexivity.
Qed.

(** * The claims *)



(** C2.  For every [lam > 0], [mu > 0], [c > 0] with
    [rho = lam / (c mu) >= 1], [analyze_queue] returns a result, not an
    exception, with [p0 = 0], [erlang_c = 1], [lq = wq = l = w = inf] and
    [stable = False]: so it does in exact arithmetic and in every range of
    the floats that holds [c]; whatever the range, a call that returns,
    returns that result. *)
Theorem analyze_queue_unstable (lam mu : Q) (c : Z) (horizon : option Q) :
  0 < lam -> 0 < mu -> (0 < c)%Z -> 1 <= lam / (inject_Z c * mu) ->
  let params := QueueParameters.mk lam mu c horizon in
  let saturated :=
    QueueMetrics.mk
      (Finite (lam / (inject_Z c * mu))) (Finite (lam / mu))
      (Finite 0) (Finite 1) PosInf PosInf PosInf PosInf
      (Finite (lam / (inject_Z c * mu) * 100)) false in
  analyze_queue unbounded params = Ok saturated
  /\ (forall R, finite R (inject_Z c) = true ->
        analyze_queue R params = Ok saturated)
  /\ (forall R m, analyze_queue R params = Ok m -> m = saturated).
Proof.
  intros Hl Hm Hc Hr params saturated.
  assert (E : forall R, finite R (inject_Z c) = true ->
                analyze_queue R params = Ok saturated).
  { intros R F.
    exact (analyze_queue_unstable_value lam mu c horizon Hl Hm Hc R F Hr). }
  split; [now apply E | split; [exact E |]].
  intros R m H. apply analyze_queue_transfer in H.
  rewrite (E unbounded eq_refl) in H. now injection H as <-.
Qed.

Lemma analyze_queue_unstable_witness :
  exists m,
    analyze_queue unbounded (QueueParameters.mk 10 2 3 (Some 100)) = Ok m
    /\ QueueMetrics.p0 m = Finite 0
    /\ QueueMetrics.erlang_c m = Finite 1
    /\ QueueMetrics.lq m = PosInf
    /\ QueueMetrics.stable m = false.
Proof.
  assert (Hl : 0 < 10) by reflexivity.
  assert (Hm : 0 < 2) by reflexivity.
  assert (Hc : (0 < 3)%Z) by reflexivity.
  assert (Hr : 1 <= 10 / (inject_Z 3 * 2)) by (vm_compute; discriminate).
  eexists. split.
  - exact (proj1 (analyze_queue_unstable 10 2 3 (Some 100) Hl Hm Hc Hr)).
  - repeat split.
Defined.



(** C4.  For every [a], [c] and [rho], [calculate_erlang_c a c rho] returns
    [1.0] whenever [rho >= 1], and otherwise returns
    [(a^c/c!) p0 / (1 - rho)] where [p0] is what [calculate_p0 a c]
    returns; an exception of [calculate_p0] is passed on.  This holds for
    every range of the floats. *)
Theorem calculate_erlang_c_cases (R : float_range) (a : Q) (c : Z) (rho : Q) :
  (1 <= rho -> calculate_erlang_c R a c rho = Ok 1)
  /\ (rho < 1 -> forall p0, calculate_p0 R a c = Ok p0 ->
        calculate_erlang_c R a c rho = Ok (erlang_c_formula a c p0 rho))
  /\ (rho < 1 -> forall e, calculate_p0 R a c = Err e ->
        calculate_erlang_c R a c rho = Err e).
Proof.
  split; [| split].
  - apply calculate_erlang_c_saturated.
  - intros H p0. now apply calculate_erlang_c_stable.
  - intros H e. now apply calculate_erlang_c_raises.
Qed.

Lemma calculate_erlang_c_cases_witness :
  calculate_erlang_c unbounded 3 2 (3 # 2) = Ok 1
  /\ calculate_erlang_c unbounded 1 2 (1 # 2)
     = Ok (erlang_c_formula 1 2 (p0_formula 1 2) (1 # 2)).
Proof.
  split.
  - apply (proj1 (calculate_erlang_c_cases unbounded 3 2 (3 # 2))).
    unfold Qle. simpl. lia.
  - apply (proj1 (proj2 (calculate_erlang_c_cases unbounded 1 2 (1 # 2)))).
    + reflexivity.
    + reflexivity.
Defined.



(** C6.  The claim: every endpoint raises InvalidParameterError when
    [lam <= 0], [mu <= 0] or [c <= 0].  [analyze_queue] does (see
    [analyze_queue_validates]); the other two endpoints have no such check.
    With [lambda_rate = -1], [mu_rate = 1], [c_servers = 1], [max_states = 1]
    [get_state_probabilities] returns a distribution, with [p0 = 2] and the
    probabilities [2] and [-2]; with [c_servers = 0] and a horizon of [0]
    [simulate_queue] returns an empty summary. *)
Theorem unvalidated_endpoints_return (omega : nat -> Q -> Q) (fuel i0 : nat) :
  get_state_probabilities binary64 (-1) 1 1 1 =
    Ok (StateProbabilities.mk 2
          [StateEntry.mk 0 2 0; StateEntry.mk 1 (-2) 0] (-1) (-1))
  /\ get_state_probabilities unbounded (-1) 1 1 1 =
    Ok (StateProbabilities.mk 2
          [StateEntry.mk 0 2 0; StateEntry.mk 1 (-2) 0] (-1) (-1))
  /\ simulate_queue omega fuel i0 (QueueParameters.mk 1 1 0 (Some 0)) =
    Some (Ok (SimulationResult.mk 0 0 0 0 [], i0)).
Proof.
  split; [vm_compute; reflexivity | split; [vm_compute; reflexivity |]].
  unfold simulate_queue. cbn [QueueParameters.simulation_time
    QueueParameters.lambda_rate QueueParameters.mu_rate
    QueueParameters.c_servers].
  rewrite arrival_loop_stopped by (unfold Qle; simpl; lia).
  reflexivity.
Qed.



(** C8.  In every run of [simulate_queue] the arrival stream is generated by
    accumulating the gaps drawn from [np.random.exponential(1 / lam)], from
    time 0: with [t k] the clock after [k] gaps, the recorded arrivals are
    [t 1, ..., t n], every one strictly before the horizon, and generation
    stops at the first clock value [t (n+1)] that reaches or crosses the
    horizon, which is not recorded (no gap at all is drawn when the horizon is
    not positive).  The loop returns as soon as the clock reaches the
    horizon. *)
Theorem arrival_stream_stops_at_horizon
    (omega : nat -> Q -> Q) (lam sim_time : Q) (i0 : nat) :
  let t := clock omega (1 / lam) i0 0 in
  (forall k, t k == sigma k (fun j => omega (i0 + j)%nat (1 / lam)))
  /\ (forall fuel arrivals i1,
        arrival_loop omega fuel lam sim_time i0 0 [] = Some (Ok (arrivals, i1)) ->
        exists n,
          arrivals = map t (seq 1 n)
          /\ Forall (fun x => x < sim_time) arrivals
          /\ (0 < sim_time -> sim_time <= t (S n) /\ i1 = (i0 + S n)%nat)
          /\ (sim_time <= 0 -> n = 0%nat /\ i1 = i0))
  /\ (0 < lam -> forall n, sim_time <= t n ->
        exists arrivals i1,
          arrival_loop omega n lam sim_time i0 0 [] = Some (Ok (arrivals, i1))).
Proof.
  intro t. split; [| split].
  - intro k. unfold t. rewrite clock_sum. ring.
  - intros fuel arrivals i1 H.
    apply arrival_loop_inv in H
      as [(Hs & -> & ->) | (n & Hlt & Hge & -> & ->)].
    + exists 0%nat.
      split; [reflexivity | split; [constructor | split; [intro; lra | auto]]].
    + exists n.
      split; [reflexivity | split; [| split; [auto |]]].
      * apply Forall_forall. intros x Hx.
        apply in_map_iff in Hx as (k & <- & Hk). apply in_seq in Hk.
        apply Hlt. lia.
      * intro Hs. pose proof (Hlt 0%nat (Nat.le_0_l n)) as C.
        simpl in C. lra.
  - intros Hl n Hn. now apply arrival_loop_returns.
Qed.

Lemma arrival_stream_stops_at_horizon_witness :
  exists arrivals i1,
    arrival_loop (fun _ scale => scale) 3 1 3 0 0 [] = Some (Ok (arrivals, i1)).
Proof.
  apply (proj2 (proj2 (arrival_stream_stops_at_horizon (fun _ scale => scale) 1 3 0))).
  - reflexivity.
  - vm_compute. discriminate.
Defined.



Lemma p0_formula_bounds (a : Q) (c : Z) :
  0 <= a -> a < inject_Z c -> 0 < p0_formula a c /\ p0_formula a c <= 1.
Proof.
  intros Ha Hc. pose proof (p0_denominator_ge_1 a c Ha Hc) as Hd.
  unfold p0_formula.
  split; [apply Qlt_shift_div_l | apply Qle_shift_div_r]; lra.
Qed.

Lemma power_over_factorial_overflows (a : Q) (k : Z) :
  (171 <= k)%Z -> power_over_factorial binary64 a k = Err OverflowError.
Proof.
  intro Hk.
  destruct (power_over_factorial binary64 a k) as [t | e] eqn:Et.
  - apply power_over_factorial_inv in Et as (_ & _ & _ & F).
    rewrite factorial_overflows in F by lia. discriminate.
  - apply power_over_factorial_overflow in Et; [now subst | lia].
Qed.

(** C9, as claimed: no overflow for a stable load with a few hundred
    servers.  With the load [a = 1] and [c = 171] servers ([rho = 1/171]) the
    probability [p0] lies in (0, 1], and both functions raise
    [OverflowError]. *)
Lemma overflow_at_171_servers :
  (1 # 171) < 1
  /\ (0 < p0_formula 1 171 /\ p0_formula 1 171 <= 1)
  /\ calculate_p0 binary64 1 171 = Err OverflowError
  /\ calculate_erlang_c binary64 1 171 (1 # 171) = Err OverflowError.
Proof.
  assert (Hr : (1 # 171) < 1) by reflexivity.
  assert (Hc : (171 <= 171)%Z) by lia.
  split; [exact Hr | split; [| split]].
  - apply p0_formula_bounds; [unfold Qle; simpl; lia | reflexivity].
  - exact (calculate_p0_overflows 1 171 Hc).
  - exact (calculate_erlang_c_overflows 1 171 (1 # 171) Hc Hr).
Qed.

(** C9, amended.  Each term [a^k/k!] is evaluated as [math.pow(a, k)]
    divided by [factorial(k)], a power and a factorial of their own.  For a
    stable load [0 <= a < c], whose [p0] lies in (0, 1]: with [c <= 170] and
    [a^c] inside the range of a double, [calculate_p0] and
    [calculate_erlang_c] raise no [OverflowError] and return the values of
    the formulas; with [c >= 171] the term of [k = c] and both functions
    raise [OverflowError], [171!] being outside the range of a double. *)
Theorem factorial_and_power_overflow (a : Q) (c : Z) (rho : Q) :
  0 <= a -> a < inject_Z c -> rho < 1 ->
  (0 < p0_formula a c /\ p0_formula a c <= 1)
  /\ ((c <= 170)%Z -> a ^ c < DBL_OVERFLOW ->
      calculate_p0 binary64 a c = Ok (p0_formula a c)
      /\ calculate_erlang_c binary64 a c rho
         = Ok (erlang_c_formula a c (p0_formula a c) rho))
  /\ ((171 <= c)%Z ->
      power_over_factorial binary64 a c = Err OverflowError
      /\ calculate_p0 binary64 a c = Err OverflowError
      /\ calculate_erlang_c binary64 a c rho = Err OverflowError).
Proof.
  intros Ha Hac Hr. split; [now apply p0_formula_bounds | split].
  - intros Hc Hp.
    pose proof (calculate_p0_binary64 a c Ha Hac Hc Hp) as E.
    split; [exact E |]. now apply calculate_erlang_c_stable.
  - intro Hc. split; [now apply power_over_factorial_overflows | split].
    + now apply calculate_p0_overflows.
    + now apply calculate_erlang_c_overflows.
Qed.

Lemma factorial_and_power_overflow_witness :
  calculate_p0 binary64 1 2 = Ok (p0_formula 1 2)
  /\ calculate_erlang_c binary64 1 2 (1 # 2)
     = Ok (erlang_c_formula 1 2 (p0_formula 1 2) (1 # 2)).
Proof.
  assert (Ha : 0 <= 1) by (unfold Qle; simpl; lia).
  assert (Hac : 1 < inject_Z 2) by reflexivity.
  assert (Hr : (1 # 2) < 1) by reflexivity.
  apply (proj1 (proj2 (factorial_and_power_overflow 1 2 (1 # 2) Ha Hac Hr))).
  - lia.
  - vm_compute. reflexivity.
Defined.

(** * Further properties of the analytic engine *)

Lemma calculate_erlang_c_arithmetic (R : float_range) (a : Q) (c : Z) (rho : Q)
    (e : error) :
  calculate_erlang_c R a c rho = Err e -> arithmetic e.
Proof.
  unfold calculate_erlang_c. destruct (Qle_bool 1 rho); [discriminate |].
  apply bind_raises; [apply calculate_p0_raises | intros p e1 _].
  apply bind_raises; [apply power_over_factorial_raises | intros t e2 _].
  apply fdiv_raises.
Qed.

Lemma analyze_queue_raises (R : float_range) (params : QueueParameters.t)
    (e : error) :
  Qle_bool (QueueParameters.lambda_rate params) 0
  || Qle_bool (QueueParameters.mu_rate params) 0
  || (QueueParameters.c_servers params <=? 0)%Z = false ->
  analyze_queue R params = Err e -> arithmetic e.
Proof.
  intro G. unfold analyze_queue, float_of_int. rewrite G.
  apply bind_raises; [apply to_float_raises | intros cf e1 _].
  apply bind_raises; [apply fdiv_raises | intros rho e2 _].
  apply bind_raises; [apply fdiv_raises | intros a e3 _].
  destruct (negb _); [discriminate |].
  apply bind_raises; [apply calculate_p0_raises | intros p e4 _].
  apply bind_raises; [apply calculate_erlang_c_arithmetic | intros C e5 _].
  apply bind_raises; [apply fdiv_raises | intros q e6 _].
  apply bind_raises; [apply fdiv_raises | intros x e7 _].
  apply bind_raises; [apply fdiv_raises | intros y e8 _].
  apply bind_raises; [apply fdiv_raises | discriminate].
Qed.


(** X2.  Whatever the range of the floats, [analyze_queue] raises the
    [HTTPException] 400 "Parameters must be positive" exactly when
    [lam <= 0], [mu <= 0] or [c <= 0]; on positive parameters it raises no
    [HTTPException] at all. *)
Theorem analyze_queue_rejects_iff (R : float_range) (params : QueueParameters.t) :
  let invalid :=
    QueueParameters.lambda_rate params <= 0
    \/ QueueParameters.mu_rate params <= 0
    \/ (QueueParameters.c_servers params <= 0)%Z in
  (analyze_queue R params = Err InvalidParameterError <-> invalid)
  /\ (forall status detail,
        analyze_queue R params = Err (HTTPException status detail) -> invalid).
Proof.
  intro invalid.
  assert (V : forall status detail,
            analyze_queue R params = Err (HTTPException status detail) -> invalid).
  { intros status detail H.
    destruct (Qle_bool (QueueParameters.lambda_rate params) 0) eqn:E1.
    { left. now apply Qle_bool_iff. }
    destruct (Qle_bool (QueueParameters.mu_rate params) 0) eqn:E2.
    { right. left. now apply Qle_bool_iff. }
    destruct (QueueParameters.c_servers params <=? 0)%Z eqn:E3.
    { right. right. now apply Z.leb_le. }
    exfalso. apply analyze_queue_raises in H; [| now rewrite E1, E2, E3].
    unfold arithmetic in H. intuition discriminate. }
  split; [split |].
  - apply V.
  - apply analyze_queue_validates.
  - exact V.
Qed.





(** X5.  With one server and [lam < mu] the metrics of [analyze_queue] are
    those of the M/M/1 queue: [p0 = 1 - rho], [erlang_c = rho],
    [wq = 60 lam / (mu (mu - lam))], [lq = lam^2 / (mu (mu - lam))],
    [w = 60 / (mu - lam)] and [l = lam / (mu - lam)]. *)
Theorem analyze_queue_single_server (lam mu : Q) (horizon : option Q) :
  0 < lam -> lam < mu ->
  exists p0 C Lq Wq L W,
    analyze_queue unbounded (QueueParameters.mk lam mu 1 horizon) =
    Ok (QueueMetrics.mk
          (Finite (lam / (inject_Z 1 * mu))) (Finite (lam / mu))
          (Finite p0) (Finite C) (Finite Lq) (Finite Wq) (Finite L) (Finite W)
          (Finite (lam / (inject_Z 1 * mu) * 100)) true)
    /\ p0 == 1 - lam / mu
    /\ C == lam / mu
    /\ Wq == lam / (mu * (mu - lam)) * 60
    /\ Lq == lam * lam / (mu * (mu - lam))
    /\ W == 60 / (mu - lam)
    /\ L == lam / (mu - lam).
Proof.
  intros Hl Hlm.
  assert (Hm : 0 < mu) by lra.
  assert (Hr : lam / (inject_Z 1 * mu) < 1).
  { assert (E : inject_Z 1 * mu == mu) by ring.
    apply Qlt_shift_div_r; lra. }
  pose proof (analyze_queue_stable_value lam mu 1 horizon Hl Hm eq_refl
                unbounded eq_refl Hr (fun k _ => in_range_unbounded _ k)) as E.
  do 6 eexists. split; [exact E |].
  unfold Wq_formula, erlang_c_formula, p0_formula, ratio.
  simpl.
  repeat split; field; repeat split; try lra. 
Qed.

Lemma analyze_queue_single_server_witness :
  exists p0 C Lq Wq L W,
    analyze_queue unbounded (QueueParameters.mk 2 3 1 None) =
    Ok (QueueMetrics.mk
          (Finite (2 / (inject_Z 1 * 3))) (Finite (2 / 3))
          (Finite p0) (Finite C) (Finite Lq) (Finite Wq) (Finite L) (Finite W)
          (Finite (2 / (inject_Z 1 * 3) * 100)) true)
    /\ p0 == 1 - 2 / 3
    /\ C == 2 / 3
    /\ Wq == 2 / (3 * (3 - 2)) * 60
    /\ Lq == 2 * 2 / (3 * (3 - 2))
    /\ W == 60 / (3 - 2)
    /\ L == 2 / (3 - 2).
Proof.
  apply (analyze_queue_single_server 2 3 None).
  - reflexivity.
  - reflexivity.
Defined.

(** * Further properties of the state distribution *)












Section Distribution.

Variables (a : Q) (c : Z).
Hypothesis a_nonneg : 0 <= a.
Hypothesis a_below_c : a < inject_Z c.

Let p0 := p0_formula a c.
Let C := Z.to_nat c.







End Distribution.











(** * Further properties of the simulation *)

Lemma min_by_first_least (key : Z -> Q) (ks : list Z) :
  forall (best : Z) (seen1 seen2 : list Z),
  (forall x, In x seen1 -> key best < key x) ->
  (forall x, In x seen2 -> key best <= key x) ->
  exists l1 l2,
    seen1 ++ best :: seen2 ++ ks = l1 ++ min_by key best ks :: l2
    /\ (forall x, In x l1 -> key (min_by key best ks) < key x)
    /\ (forall x, In x l2 -> key (min_by key best ks) <= key x).
Proof.
  induction ks as [| k ks IH]; intros best seen1 seen2 H1 H2; simpl.
  - exists seen1, seen2. rewrite app_nil_r. auto.
  - destruct (Qlt_bool (key k) (key best)) eqn:E.
    + apply Qlt_bool_iff in E.
      destruct (IH k (seen1 ++ best :: seen2) []) as (l1 & l2 & Eq & P1 & P2).
      * intros x Hx. apply in_app_or in Hx as [Hx | [<- | Hx]].
        -- specialize (H1 x Hx). lra.
        -- exact E.
        -- specialize (H2 x Hx). lra.
      * intros x [].
      * exists l1, l2. split; [| auto].
        rewrite <- Eq, <- app_assoc. reflexivity.
    + apply Qlt_bool_false in E.
      destruct (IH best seen1 (seen2 ++ [k])) as (l1 & l2 & Eq & P1 & P2).
      * exact H1.
      * intros x Hx. apply in_app_or in Hx as [Hx | [<- | []]]; auto.
      * exists l1, l2. split; [| auto].
        rewrite <- Eq, <- !app_assoc. reflexivity.
Qed.

Lemma range_split (c : Z) (l1 l2 : list Z) (m : Z) :
  range c = l1 ++ m :: l2 ->
  (0 <= m < c)%Z
  /\ (forall i, (0 <= i < m)%Z -> In i l1)
  /\ (forall i, (m < i < c)%Z -> In i l2).
Proof.
  intro E.
  assert (L : Z.to_nat c = (List.length l1 + S (List.length l2))%nat).
  { rewrite <- range_length, E, length_app. reflexivity. }
  assert (N : forall i, (0 <= i < c)%Z ->
              nth_error (l1 ++ m :: l2) (Z.to_nat i) = Some i).
  { intros i Hi. rewrite <- E. now apply range_nth_error. }
  assert (M : m = Z.of_nat (List.length l1)).
  { specialize (N (Z.of_nat (List.length l1))).
    rewrite Nat2Z.id, nth_error_app2, Nat.sub_diag in N by lia.
    simpl in N. assert (H : Some m = Some (Z.of_nat (List.length l1)))
      by (apply N; lia).
    now injection H. }
  split; [lia | split].
  - intros i Hi. specialize (N i). rewrite nth_error_app1 in N by lia.
    apply (nth_error_In l1 (Z.to_nat i)). apply N. lia.
  - intros i Hi. specialize (N i).
    rewrite nth_error_app2 in N by lia.
    destruct (Z.to_nat i - List.length l1)%nat as [| d] eqn:D; [lia |].
    simpl in N. apply (nth_error_In l2 d). apply N. lia.
Qed.

Lemma py_min_least (key : Z -> Q) (c j : Z) :
  py_min key (range c) = Ok j ->
  (0 <= j < c)%Z
  /\ (forall i, (0 <= i < c)%Z -> key j <= key i)
  /\ (forall i, (0 <= i < j)%Z -> key j < key i).
Proof.
  unfold py_min. destruct (range c) as [| k ks] eqn:E; [discriminate |].
  intro H. injection H as <-.
  destruct (min_by_first_least key ks k [] []) as (l1 & l2 & Eq & P1 & P2);
    try (intros x []).
  simpl in Eq. rewrite <- E in Eq.
  destruct (range_split c l1 l2 _ Eq) as (B & I1 & I2).
  split; [exact B | split].
  - intros i Hi.
    destruct (Z.lt_total i (min_by key k ks)) as [L | [-> | G]].
    + apply Qlt_le_weak, P1, I1. lia.
    + lra.
    + apply P2, I2. lia.
  - intros i Hi. apply P1, I1. exact Hi.
Qed.

(** X10.  The server that takes an arrival is the one that is free the
    earliest, the lowest-numbered one among equals: [min(range(c), key)]
    returns an index of [range(c)] whose key is least, and strictly less
    than the key of every lower index; it raises [ValueError] exactly when
    there is no server ([c <= 0]). *)
Theorem earliest_server_is_least (key : Z -> Q) (c : Z) :
  (py_min key (range c) = Err ValueError <-> (c <= 0)%Z)
  /\ ((0 < c)%Z ->
      exists j,
        py_min key (range c) = Ok j
        /\ (0 <= j < c)%Z
        /\ (forall i, (0 <= i < c)%Z -> key j <= key i)
        /\ (forall i, (0 <= i < j)%Z -> key j < key i)).
Proof.
  split.
  - split.
    + intro H. destruct (Z.lt_ge_cases 0 c) as [L | G]; [| exact G].
      destruct (py_min_returns key c L) as [j E]. congruence.
    + intro H. unfold range. replace (Z.to_nat c) with 0%nat by lia. reflexivity.
  - intro H. destruct (py_min_returns key c H) as [j E].
    exists j. split; [exact E |]. now apply py_min_least.
Qed.

Lemma earliest_server_is_least_witness :
  exists j,
    py_min (fun i => nth (Z.to_nat i) [3; 1; 1] 0) (range 3) = Ok j
    /\ (0 <= j < 3)%Z
    /\ (forall i, (0 <= i < 3)%Z ->
          nth (Z.to_nat j) [3; 1; 1] 0 <= nth (Z.to_nat i) [3; 1; 1] 0)
    /\ (forall i, (0 <= i < j)%Z ->
          nth (Z.to_nat j) [3; 1; 1] 0 < nth (Z.to_nat i) [3; 1; 1] 0).
Proof.
  apply (proj2 (earliest_server_is_least
                  (fun i => nth (Z.to_nat i) [3; 1; 1] 0) 3)).
  reflexivity.
Defined.

Section Idle.

Let idle (servers : list Q) : nat :=
  List.length (filter (fun b => Qle_bool b 0) servers).

Lemma idle_setitem (servers : list Q) (j : nat) (v : Q) :
  (idle servers <= S (idle (setitem servers j v)))%nat.
Proof.
  unfold idle. revert j.
  induction servers as [| b servers IH]; intros [| j]; simpl; try lia.
  - destruct (Qle_bool b 0), (Qle_bool v 0); simpl; lia.
  - specialize (IH j). destruct (Qle_bool b 0); simpl; lia.
Qed.

Lemma idle_repeat (n : nat) : idle (repeat 0 n) = n.
Proof.
  unfold idle. induction n as [| n IH]; simpl; [reflexivity | now rewrite IH].
Qed.

Lemma idle_server (servers : list Q) :
  (0 < idle servers)%nat ->
  exists k, (k < List.length servers)%nat /\ nth k servers 0 <= 0.
Proof.
  unfold idle. induction servers as [| b servers IH]; simpl; [lia |].
  destruct (Qle_bool b 0) eqn:E.
  - intros _. exists 0%nat. split; [lia | now apply Qle_bool_iff].
  - intro H. destruct (IH H) as (k & L & P). exists (S k). split; [lia | exact P].
Qed.

Variable omega : nat -> Q -> Q.
Variables (mu : Q) (c : Z).

(** While idle servers remain, an arrival starts at once. *)
Lemma service_loop_no_wait (arrivals : list Q) :
  forall (i : nat) (servers wait_times out servers' : list Q) (i' : nat),
  List.length servers = Z.to_nat c ->
  Forall (Qle 0) arrivals ->
  (List.length arrivals <= idle servers)%nat ->
  service_loop omega mu c arrivals i servers wait_times = Ok (out, servers', i') ->
  exists waits,
    out = wait_times ++ waits
    /\ List.length waits = List.length arrivals
    /\ Forall (fun w => w == 0) waits.
Proof.
  induction arrivals as [| t arrivals IH];
    intros i servers wait_times out servers' i' L A I; simpl.
  - intro H. injection H as <- <- <-. exists []. rewrite app_nil_r. auto.
  - destruct (py_min _ _) as [j |] eqn:J; cbn [bind]; [| discriminate].
    destruct (fdiv 1 mu) as [scale |]; cbn [bind]; [| discriminate].
    destruct (np_random_exponential omega i scale) as [[d i1] |];
      cbn [bind]; [| discriminate].
    intro H. inversion A as [| ? ? Ht A']; subst.
    apply IH in H; [| now rewrite setitem_length | exact A' |].
    + destruct H as (waits & -> & Lw & F).
      eexists (_ :: waits). rewrite <- app_assoc. split; [reflexivity |].
      split; [simpl; now rewrite Lw |].
      constructor; [| exact F].
      apply py_min_least in J as (_ & Least & _).
      destruct (idle_server servers) as (k & Lk & Pk); [simpl in I; lia |].
      specialize (Least (Z.of_nat k)). cbv beta in Least.
      rewrite Nat2Z.id in Least.
      assert (B : nth (Z.to_nat j) servers 0 <= t) by (specialize (Least ltac:(lia)); lra).
      unfold py_max. rewrite (proj2 (Qlt_bool_false _ _) B). ring.
    + pose proof (idle_setitem servers (Z.to_nat j)
                    (py_max t (nth (Z.to_nat j) servers 0) + d)).
      simpl in I. lia.
Qed.

End Idle.

Lemma clock_nonneg (omega : nat -> Q -> Q) (scale : Q) (k : nat) :
  (forall i, 0 <= omega i scale) ->
  forall (i : nat) (t : Q), 0 <= t -> 0 <= clock omega scale i t k.
Proof.
  intro H. induction k as [| k IH]; intros i t Ht; simpl; [exact Ht |].
  apply IH. pose proof (H i). lra.
Qed.

Lemma arrival_loop_scale (omega : nat -> Q -> Q) (fuel : nat) (lam sim_time : Q)
    (i : nat) (t : Q) (arrivals out : list Q) (i' : nat) :
  arrival_loop omega fuel lam sim_time i t arrivals = Some (Ok (out, i')) ->
  t < sim_time -> 0 <= 1 / lam.
Proof.
  intros H L. apply Qlt_bool_iff in L.
  destruct fuel as [| fuel]; simpl in H; rewrite L in H; [discriminate |].
  destruct (fdiv 1 lam) as [scale |] eqn:E; cbn [bind] in H; [| discriminate].
  apply fdiv_inv in E as [_ ->]. unfold np_random_exponential in H.
  destruct (Qlt_bool (1 / lam) 0) eqn:S; [discriminate |].
  now apply Qlt_bool_false.
Qed.

Lemma fold_max_in (xs : list Q) (x : Q) : In (fold_left py_max xs x) (x :: xs).
Proof.
  revert x. induction xs as [| y xs IH]; intro x; simpl; [now left |].
  destruct (IH (py_max x y)) as [E | I].
  - rewrite <- E. unfold py_max. destruct (Qlt_bool x y); auto.
  - auto.
Qed.

Lemma fold_sum_zero (xs : list Q) (acc : Q) :
  Forall (fun w => w == 0) xs -> fold_left Qplus xs acc == acc.
Proof.
  intro H. revert acc. induction H as [| x xs Hx _ IH]; intro acc; simpl.
  - reflexivity.
  - rewrite IH, Hx. ring.
Qed.

Lemma In_firstn (n : nat) (xs : list Q) (x : Q) :
  In x (firstn n xs) -> In x xs.
Proof.
  revert n. induction xs as [| y xs IH]; intros [| n]; simpl; try tauto.
  intros [E | I]; [now left | right; now apply (IH n)].
Qed.

Lemma summarize_zero (arrivals wait_times : list Q) :
  Forall (fun w => w == 0) wait_times ->
  let r := summarize arrivals wait_times in
  SimulationResult.avg_wait_time_minutes r == 0
  /\ SimulationResult.max_wait_time_minutes r == 0
  /\ Forall (fun w => w == 0) (SimulationResult.wait_times_sample r).
Proof.
  intro H. unfold summarize. cbn [SimulationResult.avg_wait_time_minutes
    SimulationResult.max_wait_time_minutes SimulationResult.wait_times_sample].
  rewrite Forall_forall in H. repeat split.
  - destruct wait_times as [| x xs] eqn:E; [reflexivity |]. rewrite <- E in *.
    unfold np_mean. rewrite fold_sum_zero by now apply Forall_forall.
    unfold Qdiv. ring.
  - destruct wait_times as [| x xs]; [reflexivity |].
    unfold np_max. rewrite (H _ (fold_max_in xs x)). ring.
  - apply Forall_forall. intros y Hy.
    apply in_map_iff in Hy as (x & <- & Hx).
    apply In_firstn in Hx. rewrite (H x Hx). ring.
Qed.

(** X11.  When no more customers arrive than there are servers, nobody
    waits: if the gaps that the generator draws are not negative, a run of
    [simulate_queue] with [total_arrivals <= c] reports a mean and a maximal
    wait of 0 and only zeros in its sample. *)
Theorem no_wait_while_servers_remain
    (omega : nat -> Q -> Q) (i0 : nat) (lam mu : Q) (c : Z) (sim_time : Q)
    (fuel : nat) (r : SimulationResult.t) (i2 : nat) :
  (forall i scale, 0 <= scale -> 0 <= omega i scale) ->
  simulate_queue omega fuel i0 (QueueParameters.mk lam mu c (Some sim_time))
  = Some (Ok (r, i2)) ->
  (Z.of_nat (SimulationResult.total_arrivals r) <= c)%Z ->
  SimulationResult.avg_wait_time_minutes r == 0
  /\ SimulationResult.max_wait_time_minutes r == 0
  /\ Forall (fun w => w == 0) (SimulationResult.wait_times_sample r).
Proof.
  intros Hgap. unfold simulate_queue.
  cbn [QueueParameters.simulation_time QueueParameters.lambda_rate
       QueueParameters.mu_rate QueueParameters.c_servers].
  destruct (arrival_loop omega fuel lam sim_time i0 0 [])
    as [[[arrivals i1] | e] |] eqn:EA; try discriminate.
  destruct (service_loop omega mu c arrivals i1 _ [])
    as [[[wait_times servers] j] | e] eqn:ES; cbn [bind]; try discriminate.
  intro H. injection H as <- <-.
  cbn [summarize SimulationResult.total_arrivals]. intro Hn.
  assert (A : Forall (Qle 0) arrivals).
  { pose proof EA as EA'.
    apply arrival_loop_inv in EA
      as [(Hs & -> & ->) | (n & Hlt & Hge & -> & ->)]; [constructor |].
    pose proof (Hlt 0%nat (Nat.le_0_l n)) as C0. simpl in C0.
    pose proof (arrival_loop_scale _ _ _ _ _ _ _ _ _ EA' C0) as S.
    apply Forall_forall. intros x Hx. simpl in Hx.
    apply in_map_iff in Hx as (k & <- & _).
    apply clock_nonneg; [| lra]. intro i. now apply Hgap. }
  apply service_loop_no_wait in ES.
  - destruct ES as (waits & -> & _ & F). now apply summarize_zero.
  - apply repeat_length.
  - exact A.
  - cbv zeta. rewrite idle_repeat. lia.
Qed.

Lemma no_wait_while_servers_remain_witness :
  SimulationResult.max_wait_time_minutes
    (SimulationResult.mk 2 2 (0 # 2) 0 [0; 0]) == 0.
Proof.
  refine (proj1 (proj2 (no_wait_while_servers_remain
            (fun _ scale => scale) 0 1 1 2 3 3
            (SimulationResult.mk 2 2 (0 # 2) 0 [0; 0]) 5 _ _ _))).
  - intros _ scale H. exact H.
  - vm_compute. reflexivity.
  - vm_compute. discriminate.
Defined.

Lemma py_max_ge_r (x y : Q) : y <= py_max x y.
Proof.
  unfold py_max. destruct (Qlt_bool x y) eqn:E; [lra |].
  apply Qlt_bool_false in E. exact E.
Qed.

Lemma fold_max_upper (xs : list Q) :
  forall x y, In y (x :: xs) -> y <= fold_left py_max xs x.
Proof.
  induction xs as [| z xs IH]; intros x y; simpl.
  - intros [<- | []]. lra.
  - pose proof (fold_max_ge xs (py_max x z)) as G.
    intros [<- | [<- | I]].
    + pose proof (py_max_ge x z). lra.
    + pose proof (py_max_ge_r x z). lra.
    + apply IH. now right.
Qed.

Lemma fold_sum_le (xs : list Q) (M acc : Q) :
  Forall (fun w => w <= M) xs ->
  fold_left Qplus xs acc <= acc + inject_Z (Z.of_nat (List.length xs)) * M.
Proof.
  intro H. revert acc. induction H as [| x xs Hx _ IH]; intro acc.
  - cbn [fold_left List.length]. change (inject_Z (Z.of_nat 0)) with 0. lra.
  - cbn [fold_left List.length]. specialize (IH (acc + x)).
    rewrite Nat2Z.inj_succ, <- Z.add_1_r, inject_Z_plus.
    change (inject_Z 1) with 1. lra.
Qed.

Lemma np_mean_le_max (x : Q) (xs : list Q) :
  np_mean (x :: xs) <= np_max (x :: xs).
Proof.
  unfold np_mean, np_max.
  set (M := fold_left py_max xs x).
  assert (F : Forall (fun w => w <= M) (x :: xs)).
  { apply Forall_forall. intros y Hy. now apply fold_max_upper. }
  pose proof (fold_sum_le (x :: xs) M 0 F) as S.
  apply Qle_shift_div_r.
  - unfold Qlt. simpl. lia.
  - lra.
Qed.

Lemma summarize_bounds (arrivals wait_times : list Q) :
  let r := summarize arrivals wait_times in
  SimulationResult.avg_wait_time_minutes r
  <= SimulationResult.max_wait_time_minutes r
  /\ Forall (fun w => w <= SimulationResult.max_wait_time_minutes r)
       (SimulationResult.wait_times_sample r)
  /\ List.length (SimulationResult.wait_times_sample r)
     = Nat.min 10 (List.length wait_times).
Proof.
  unfold summarize. cbn [SimulationResult.avg_wait_time_minutes
    SimulationResult.max_wait_time_minutes SimulationResult.wait_times_sample].
  split; [| split].
  - destruct wait_times as [| x xs]; [lra |].
    pose proof (np_mean_le_max x xs). lra.
  - apply Forall_forall. intros y Hy.
    apply in_map_iff in Hy as (w & <- & Hw). apply In_firstn in Hw.
    destruct wait_times as [| x xs]; [destruct Hw |].
    unfold np_max. pose proof (fold_max_upper xs x w Hw). lra.
  - now rewrite length_map, length_firstn.
Qed.

(** X12.  The summary of a run of [simulate_queue] is coherent: the mean
    wait is at most the maximal wait, the sample holds the first
    [min(10, total_served)] waits, none above the maximum, and a run without
    arrivals reports 0 for both and an empty sample. *)
Theorem simulation_summary_is_coherent
    (omega : nat -> Q -> Q) (fuel i0 : nat) (params : QueueParameters.t)
    (r : SimulationResult.t) (i2 : nat) :
  simulate_queue omega fuel i0 params = Some (Ok (r, i2)) ->
  SimulationResult.avg_wait_time_minutes r
  <= SimulationResult.max_wait_time_minutes r
  /\ Forall (fun w => w <= SimulationResult.max_wait_time_minutes r)
       (SimulationResult.wait_times_sample r)
  /\ List.length (SimulationResult.wait_times_sample r)
     = Nat.min 10 (SimulationResult.total_served r)
  /\ (SimulationResult.total_arrivals r = 0%nat ->
      r = SimulationResult.mk 0 0 0 0 []).
Proof.
  unfold simulate_queue.
  destruct (QueueParameters.simulation_time params) as [sim_time |];
    [| discriminate].
  destruct (arrival_loop omega fuel _ sim_time i0 0 [])
    as [[[arrivals i1] | e] |]; try discriminate.
  destruct (service_loop omega _ _ arrivals i1 _ [])
    as [[[wait_times servers] j] | e] eqn:ES; cbn [bind]; try discriminate.
  intro H. injection H as <- <-.
  destruct (summarize_bounds arrivals wait_times) as (A & F & L).
  split; [exact A | split; [exact F | split; [exact L |]]].
  cbn [summarize SimulationResult.total_arrivals]. intro Z0.
  destruct arrivals; [| discriminate]. simpl in ES.
  injection ES as <- _ _. reflexivity.
Qed.

Lemma simulation_summary_is_coherent_witness :
  SimulationResult.avg_wait_time_minutes
    (SimulationResult.mk 2 2 (0 # 2) 0 [0; 0])
  <= SimulationResult.max_wait_time_minutes
       (SimulationResult.mk 2 2 (0 # 2) 0 [0; 0]).
Proof.
  refine (proj1 (simulation_summary_is_coherent
            (fun _ scale => scale) 3 0 (QueueParameters.mk 1 1 2 (Some 3))
            (SimulationResult.mk 2 2 (0 # 2) 0 [0; 0]) 5 _)).
  vm_compute. reflexivity.
Defined.

Lemma reciprocal_negative (x : Q) : x < 0 -> 1 / x < 0.
Proof.
  intro H. destruct (Qlt_le_dec (1 / x) 0) as [N | G]; [exact N | exfalso].
  assert (E : x * (1 / x) == 1) by (field; lra).
  assert (P : 0 <= 1 / x * - x) by (apply Qmult_le_0_compat; lra).
  lra.
Qed.

(** X13.  [simulate_queue] does not look at [lam], [mu] and [c] before it
    needs them.  With a horizon that is not positive it returns the empty
    summary and draws nothing, whatever the other parameters.  With a
    positive horizon, [lam = 0] raises [ZeroDivisionError] and [lam < 0]
    raises [ValueError] (numpy refuses the scale) at the first gap; a null
    horizon raises [TypeError]. *)
Theorem simulate_queue_unchecked_rates
    (omega : nat -> Q -> Q) (fuel i0 : nat) (lam mu : Q) (c : Z) (sim_time : Q) :
  (sim_time <= 0 ->
     simulate_queue omega fuel i0 (QueueParameters.mk lam mu c (Some sim_time))
     = Some (Ok (SimulationResult.mk 0 0 0 0 [], i0)))
  /\ (0 < sim_time -> lam == 0 ->
      simulate_queue omega (S fuel) i0 (QueueParameters.mk lam mu c (Some sim_time))
      = Some (Err ZeroDivisionError))
  /\ (0 < sim_time -> lam < 0 ->
      simulate_queue omega (S fuel) i0 (QueueParameters.mk lam mu c (Some sim_time))
      = Some (Err ValueError))
  /\ simulate_queue omega fuel i0 (QueueParameters.mk lam mu c None)
     = Some (Err TypeError).
Proof.
  unfold simulate_queue.
  cbn [QueueParameters.simulation_time QueueParameters.lambda_rate
       QueueParameters.mu_rate QueueParameters.c_servers].
  split; [| split; [| split]].
  - intro H. now rewrite arrival_loop_stopped.
  - intros H L. simpl. rewrite (proj2 (Qlt_bool_iff 0 sim_time) H).
    unfold fdiv. now rewrite (proj2 (Qeq_bool_iff lam 0) L).
  - intros H L. simpl. rewrite (proj2 (Qlt_bool_iff 0 sim_time) H).
    rewrite fdiv_ok by lra. cbn [bind]. unfold np_random_exponential.
    now rewrite (proj2 (Qlt_bool_iff _ _) (reciprocal_negative lam L)).
  - reflexivity.
Qed.

Lemma simulate_queue_unchecked_rates_witness :
  simulate_queue (fun _ scale => scale) 1 0 (QueueParameters.mk 0 1 1 (Some 1))
  = Some (Err ZeroDivisionError).
Proof.
  apply (proj1 (proj2 (simulate_queue_unchecked_rates
                         (fun _ scale => scale) 0 0 0 1 1 1)));
    reflexivity.
Defined.

(** X14.  [mu] and [c] are first used when the first arrival is served.
    In a run with [lam > 0] whose first arrival falls before the horizon,
    [c <= 0] raises [ValueError] ([min] of an empty range); with a server,
    [mu = 0] raises [ZeroDivisionError] and [mu < 0] raises [ValueError]. *)
Theorem simulate_queue_unchecked_servers
    (omega : nat -> Q -> Q) (i0 : nat) (lam mu : Q) (c : Z) (sim_time : Q)
    (n : nat) :
  0 < lam -> 0 < sim_time -> omega i0 (1 / lam) < sim_time ->
  sim_time <= clock omega (1 / lam) i0 0 n ->
  let run :=
    simulate_queue omega n i0 (QueueParameters.mk lam mu c (Some sim_time)) in
  ((c <= 0)%Z -> run = Some (Err ValueError))
  /\ ((0 < c)%Z -> mu == 0 -> run = Some (Err ZeroDivisionError))
  /\ ((0 < c)%Z -> mu < 0 -> run = Some (Err ValueError)).
Proof.
  intros Hl Hs Hfirst Hn run. subst run. unfold simulate_queue.
  cbn [QueueParameters.simulation_time QueueParameters.lambda_rate
       QueueParameters.mu_rate QueueParameters.c_servers].
  destruct (arrival_loop_returns omega lam sim_time n Hl i0 0 [] Hn)
    as (arrivals & i1 & EA).
  rewrite EA.
  apply arrival_loop_inv in EA
    as [(Hstop & _) | (m & Hlt & Hge & -> & ->)]; [lra |].
  destruct m as [| m]; [simpl in Hge; lra |].
  cbn [app seq map service_loop].
  split; [| split].
  - intro Hc. unfold range. replace (Z.to_nat c) with 0%nat by lia. reflexivity.
  - intros Hc Hm.
    destruct (py_min_returns
                (fun j => nth (Z.to_nat j) (repeat 0 (Z.to_nat c)) 0) c Hc)
      as [j ->].
    cbn [bind]. unfold fdiv. now rewrite (proj2 (Qeq_bool_iff mu 0) Hm).
  - intros Hc Hm.
    destruct (py_min_returns
                (fun j => nth (Z.to_nat j) (repeat 0 (Z.to_nat c)) 0) c Hc)
      as [j ->].
    cbn [bind]. rewrite fdiv_ok by lra. cbn [bind].
    unfold np_random_exponential.
    now rewrite (proj2 (Qlt_bool_iff _ _) (reciprocal_negative mu Hm)).
Qed.

Lemma simulate_queue_unchecked_servers_witness :
  simulate_queue (fun _ scale => scale) 3 0 (QueueParameters.mk 1 1 0 (Some 3))
  = Some (Err ValueError).
Proof.
  apply (proj1 (simulate_queue_unchecked_servers
                  (fun _ scale => scale) 0 1 1 0 3 3
                  eq_refl eq_refl eq_refl ltac:(vm_compute; discriminate))).
  lia.
Defined.

(** * The range of the floats only adds overflows *)



Section WithinRange.

Variable R : float_range.











End WithinRange.




(** * The pool of servers *)

Lemma nth_setitem_ge (xs : list Q) (j : nat) (v : Q) :
  nth j xs 0 <= v -> forall k, nth k xs 0 <= nth k (setitem xs j v) 0.
Proof.
  revert j. induction xs as [| x xs IH]; intros [| j] H [| k]; simpl in *;
    try lra.
  now apply IH.
Qed.

Lemma Forall_setitem (P : Q -> Prop) (xs : list Q) (j : nat) (v : Q) :
  Forall P xs -> P v -> Forall P (setitem xs j v).
Proof.
  intros H Hv. revert j. induction H as [| x xs Hx Hxs IH]; intros [| j]; simpl;
    constructor; auto.
Qed.

Lemma np_random_exponential_nonneg (omega : nat -> Q -> Q) (i : nat)
    (scale d : Q) (i' : nat) :
  (forall k s, 0 <= s -> 0 <= omega k s) ->
  np_random_exponential omega i scale = Ok (d, i') -> 0 <= d.
Proof.
  intro Hgap. unfold np_random_exponential.
  destruct (Qlt_bool scale 0) eqn:E; [discriminate |].
  intro H. injection H as <- _. apply Hgap. now apply Qlt_bool_false.
Qed.

Section Pool.

Variable omega : nat -> Q -> Q.
Variables (mu : Q) (c : Z).
Hypothesis gaps_nonneg : forall k scale, 0 <= scale -> 0 <= omega k scale.

Lemma service_loop_pool (arrivals : list Q) :
  forall (i : nat) (servers wait_times out servers' : list Q) (i' : nat),
  service_loop omega mu c arrivals i servers wait_times = Ok (out, servers', i') ->
  List.length servers' = List.length servers
  /\ (forall k, nth k servers 0 <= nth k servers' 0)
  /\ exists waits,
       out = wait_times ++ waits /\ List.length waits = List.length arrivals.
Proof.
  induction arrivals as [| t arrivals IH];
    intros i servers wait_times out servers' i'; simpl.
  - intro H. injection H as <- <- <-. repeat split; [intro; lra |].
    exists []. now rewrite app_nil_r.
  - destruct (py_min _ _) as [j |]; cbn [bind]; [| discriminate].
    destruct (fdiv 1 mu) as [scale |]; cbn [bind]; [| discriminate].
    destruct (np_random_exponential omega i scale) as [[d i1] |] eqn:D;
      cbn [bind]; [| discriminate].
    pose proof (np_random_exponential_nonneg omega i scale d i1 gaps_nonneg D)
      as Hd.
    intro H. apply IH in H as (L & M & waits & -> & Lw).
    rewrite setitem_length in L. split; [exact L | split].
    + intro k. apply Qle_trans with (2 := M k). apply nth_setitem_ge.
      pose proof (py_max_ge_r t (nth (Z.to_nat j) servers 0)). lra.
    + eexists (_ :: waits). rewrite <- app_assoc.
      split; [reflexivity | simpl; now rewrite Lw].
Qed.

(** Service starts are in the order of the arrivals. *)
Lemma service_loop_fcfs (arrivals : list Q) :
  forall (i : nat) (servers wait_times out servers' : list Q) (i' : nat) (low : Q),
  List.length servers = Z.to_nat c ->
  Forall (Qle low) servers ->
  StronglySorted Qle arrivals ->
  service_loop omega mu c arrivals i servers wait_times = Ok (out, servers', i') ->
  exists waits,
    out = wait_times ++ waits
    /\ List.length waits = List.length arrivals
    /\ Forall (fun p => fst p <= fst p + snd p /\ low <= fst p + snd p)
         (combine arrivals waits)
    /\ StronglySorted Qle (map (fun p => fst p + snd p) (combine arrivals waits)).
Proof.
  induction arrivals as [| t arrivals IH];
    intros i servers wait_times out servers' i' low L F S; simpl.
  - intro H. injection H as <- <- <-. exists []. rewrite app_nil_r.
    repeat split; constructor.
  - destruct (py_min _ _) as [j |] eqn:J; cbn [bind]; [| discriminate].
    destruct (fdiv 1 mu) as [scale |]; cbn [bind]; [| discriminate].
    destruct (np_random_exponential omega i scale) as [[d i1] |] eqn:D;
      cbn [bind]; [| discriminate].
    pose proof (np_random_exponential_nonneg omega i scale d i1 gaps_nonneg D)
      as Hd.
    apply py_min_least in J as (B & Least & _).
    set (m := nth (Z.to_nat j) servers 0) in *.
    assert (Hm : low <= m).
    { rewrite Forall_forall in F. apply F. apply nth_In. lia. }
    assert (Fm : Forall (Qle m) servers).
    { apply Forall_forall. intros b Hb.
      destruct (In_nth servers b 0 Hb) as (k & Hk & <-).
      specialize (Least (Z.of_nat k)). cbv beta in Least.
      rewrite Nat2Z.id in Least. apply Least. lia. }
    inversion S as [| ? ? S' Ft]; subst.
    intro H. apply IH with (low := m) in H; [| | | exact S'].
    + destruct H as (waits & -> & Lw & Fw & Sw).
      pose proof (py_max_ge t m) as G1. pose proof (py_max_ge_r t m) as G2.
      eexists (_ :: waits). rewrite <- app_assoc.
      split; [reflexivity |]. split; [simpl; now rewrite Lw |].
      cbn [combine map fst snd]. split.
      * constructor.
        -- cbn [fst snd]. lra.
        -- eapply Forall_impl; [| exact Fw]. intros p [P1 P2]. split; lra.
      * constructor; [exact Sw |].
        apply Forall_forall. intros s Hs.
        apply in_map_iff in Hs as (p & <- & Hp).
        rewrite Forall_forall in Fw. destruct (Fw p Hp) as [P1 P2].
        assert (Pt : t <= fst p).
        { rewrite Forall_forall in Ft. apply Ft.
          destruct p as [a w]. apply in_combine_l in Hp. exact Hp. }
        assert (E : t + (py_max t m - t) == py_max t m) by ring.
        rewrite E. unfold py_max. destruct (Qlt_bool t m); lra.
    + now rewrite setitem_length.
    + apply Forall_setitem; [exact Fm |].
      pose proof (py_max_ge_r t m). lra.
Qed.

End Pool.

(** X16.  The pool of servers keeps its size through the loop that serves
    the arrivals, the waits of a run are appended in the order of the
    arrivals, one per arrival, after the waits already there, and, when
    the durations that the generator draws are not negative, no server's
    free time ever moves back. *)
Theorem server_pool_invariants
    (omega : nat -> Q -> Q) (mu : Q) (c : Z) (arrivals : list Q) (i : nat)
    (servers wait_times out servers' : list Q) (i' : nat) :
  (forall k scale, 0 <= scale -> 0 <= omega k scale) ->
  service_loop omega mu c arrivals i servers wait_times = Ok (out, servers', i') ->
  List.length servers' = List.length servers
  /\ (forall k, nth k servers 0 <= nth k servers' 0)
  /\ exists waits,
       out = wait_times ++ waits /\ List.length waits = List.length arrivals.
Proof.
  intros Hgap H. exact (service_loop_pool omega mu c Hgap arrivals _ _ _ _ _ _ H).
Qed.

Lemma server_pool_invariants_witness :
  List.length [1 + 1; 0] = List.length [0; 0].
Proof.
  refine (proj1 (server_pool_invariants (fun _ scale => scale) 1 2 [1] 0
                   [0; 0] [] [1 - 1] [1 + 1; 0] 1 _ _)).
  - intros _ scale H. exact H.
  - vm_compute. reflexivity.
Defined.

(** X17.  Customers start service in the order in which they arrive: in
    the loop that serves the arrivals, started on [c] free servers with
    arrival times in increasing order and durations that are not negative,
    the start times [arrival + wait] are in increasing order too, and no
    start precedes its arrival. *)
Theorem service_starts_in_arrival_order
    (omega : nat -> Q -> Q) (mu : Q) (c : Z) (arrivals : list Q) (i : nat)
    (out servers' : list Q) (i' : nat) :
  (forall k scale, 0 <= scale -> 0 <= omega k scale) ->
  StronglySorted Qle arrivals ->
  service_loop omega mu c arrivals i (repeat 0 (Z.to_nat c)) [] = Ok (out, servers', i') ->
  List.length out = List.length arrivals
  /\ Forall (fun p => fst p <= fst p + snd p) (combine arrivals out)
  /\ StronglySorted Qle (map (fun p => fst p + snd p) (combine arrivals out)).
Proof.
  intros Hgap S H.
  apply (service_loop_fcfs omega mu c Hgap arrivals _ _ _ _ _ _ 0) in H.
  - destruct H as (waits & -> & L & F & Sw). simpl.
    split; [exact L | split; [| exact Sw]].
    eapply Forall_impl; [| exact F]. intros p [P _]. exact P.
  - apply repeat_length.
  - apply Forall_forall. intros b Hb. apply repeat_spec in Hb. subst. lra.
  - exact S.
Qed.

Lemma service_starts_in_arrival_order_witness :
  StronglySorted Qle
    (map (fun p => fst p + snd p) (combine [1; 2; 3] [0 # 1; 1 # 1; 2 # 1])).
Proof.
  refine (proj2 (proj2 (service_starts_in_arrival_order
            (fun _ scale => scale) (1 # 2) 1 [1; 2; 3] 0
            [0 # 1; 1 # 1; 2 # 1] [7] 3 _ _ _))).
  - intros _ scale H. exact H.
  - repeat constructor; unfold Qle; simpl; lia.
  - vm_compute. reflexivity.
Defined.
